(** * Zenload: the SoundCloud proxy worker and the YouTube format endpoint

    A shallow embedding of [cloudflare-worker/soundcloud-proxy.js] (the
    credential scraper and its module-level cache, the search, resolve and
    stream operations, and the request handler) and of the format selection of
    the Express endpoint [/youtube/video], followed by the properties of the
    specification that concern them.

    Conventions.  JavaScript values coming from [response.json()] are modelled
    by the untyped tree [value]; property reads, optional chaining, truthiness
    and string conversion follow ECMAScript on that tree.  Text is a [string]
    of 8-bit code units.  Asynchronous functions are written in a state and
    exception monad over the module-level variables and the log of outbound
    requests; the remote side is an oracle [env].  Interleaving of concurrent
    calls is modelled separately, by a labelled step function that suspends a
    call at each [await]. *)

From Stdlib Require Import ZArith List String Ascii Bool Lia DecimalString.
From Stdlib Require DecimalPos.
Import ListNotations.
Local Open Scope string_scope.
Local Open Scope Z_scope.
#[local] Set Warnings "-register-all".

(** ** Exceptions and results *)

(** What a [throw] carries.  [Error msg] is [new Error(msg)] of the program
    itself; the others are raised by the runtime. *)
Inductive exn : Type :=
| Error (message : string)
| FetchRejected                         (* fetch() or the body read rejected *)
| JsonSyntaxError                       (* response.json() on a non-JSON body *)
| NullishRead (property : string)       (* TypeError: property read on null/undefined *)
| NotAFunction (name : string)          (* TypeError: x.name is not a function *)
| NotPrimitive.                         (* TypeError: cannot convert object to primitive *)

Inductive result (A : Type) : Type :=
| Ok (a : A)
| Throw (e : exn).
Arguments Ok {A} a.
Arguments Throw {A} e.

(** [error.message] as the [catch] of the handler reads it.  The wording of the
    runtime's own messages is the engine's; only the fact that they differ from
    the program's messages matters. *)
Definition exn_message (e : exn) : string :=
  match e with
  | Error m => m
  | FetchRejected => "fetch failed"
  | JsonSyntaxError => "Unexpected token in JSON"
  | NullishRead p => "Cannot read properties of null or undefined (reading '" ++ p ++ "')"
  | NotAFunction n => n ++ " is not a function"
  | NotPrimitive => "Cannot convert object to primitive value"
  end.

Definition is_ok {A} (r : result A) : bool :=
  match r with Ok _ => true | Throw _ => false end.

(** ** JavaScript values *)

Module JS.

Inductive value : Type :=
| VUndef
| VNull
| VBool (b : bool)
| VNum (n : Z)
| VStr (s : string)
| VArr (items : list value)
| VObj (fields : list (string * value)).

(** ToBoolean. *)
Definition truthy (v : value) : bool :=
  match v with
  | VUndef | VNull => false
  | VBool b => b
  | VNum n => negb (n =? 0)
  | VStr s => negb (s =? "")%string
  | VArr _ | VObj _ => true
  end.

Definition nullish (v : value) : bool :=
  match v with VUndef | VNull => true | _ => false end.

Fixpoint lookup (k : string) (fields : list (string * value)) : value :=
  match fields with
  | [] => VUndef
  | (k', v) :: rest => if (k =? k')%string then v else lookup k rest
  end.

Definition has_own (k : string) (fields : list (string * value)) : bool :=
  existsb (fun kv => (k =? fst kv)%string) fields.

(** [v.k] for the property names the program reads ([media], [transcodings],
    [format], [protocol], [url], [id], [title], [permalink_url], [duration],
    [artwork_url], [user], [username], [full_name], [collection]): none of
    them is an index, [length] or a member of a built-in prototype, so only an
    object can hold one; reading from [null] or [undefined] throws. *)
Definition get (v : value) (k : string) : result value :=
  match v with
  | VUndef | VNull => Throw (NullishRead k)
  | VObj fields => Ok (lookup k fields)
  | _ => Ok VUndef
  end.

(** [v?.k] *)
Definition get_opt (v : value) (k : string) : value :=
  match v with
  | VObj fields => lookup k fields
  | _ => VUndef
  end.

(** [a === b] against a string literal. *)
Definition is_str (v : value) (s : string) : bool :=
  match v with VStr s' => (s' =? s)%string | _ => false end.

Definition string_of_Z (n : Z) : string :=
  NilEmpty.string_of_int (Z.to_int n).

(** ToString, as a template literal applies it.  An object converts through
    [Object.prototype.toString] unless an own [toString] property (never
    callable in parsed JSON) shadows it, in which case the conversion throws;
    an array joins the conversions of its items, [null] and [undefined]
    giving the empty string. *)
Fixpoint to_string (v : value) : result string :=
  match v with
  | VUndef => Ok "undefined"
  | VNull => Ok "null"
  | VBool true => Ok "true"
  | VBool false => Ok "false"
  | VNum n => Ok (string_of_Z n)
  | VStr s => Ok s
  | VObj fields =>
      if has_own "toString" fields then Throw NotPrimitive else Ok "[object Object]"
  | VArr items =>
      (fix join (first : bool) (xs : list value) : result string :=
         match xs with
         | [] => Ok ""
         | x :: rest =>
             let sep := if first then "" else "," in
             match (if nullish x then Ok "" else to_string x) with
             | Throw e => Throw e
             | Ok sx =>
                 match join false rest with
                 | Throw e => Throw e
                 | Ok sr => Ok (sep ++ sx ++ sr)
                 end
             end
         end) true items
  end.

(** The tree [JSON.stringify] writes: properties whose value is [undefined]
    are omitted, and [undefined] inside an array is written as [null]. *)
Fixpoint json_shape (v : value) : value :=
  match v with
  | VArr items =>
      VArr (map (fun x => match x with VUndef => VNull | _ => json_shape x end) items)
  | VObj fields =>
      VObj ((fix props (fs : list (string * value)) : list (string * value) :=
               match fs with
               | [] => []
               | (k, VUndef) :: rest => props rest
               | (k, x) :: rest => (k, json_shape x) :: props rest
               end) fields)
  | _ => v
  end.

End JS.
Import JS.

(** ** Text: the two regular expressions, [includes], [parseInt] *)

Definition dquote : ascii := ascii_of_nat 34.
Definition squote : ascii := ascii_of_nat 39.

(** [\s] on 8-bit code units: TAB, LF, VT, FF, CR, SPACE, NBSP. *)
Definition is_space (c : ascii) : bool :=
  let n := N_of_ascii c in
  ((9 <=? n) && (n <=? 13) || (n =? 32) || (n =? 160))%N.

(** [[a-zA-Z0-9]] *)
Definition is_alnum (c : ascii) : bool :=
  let n := N_of_ascii c in
  ((48 <=? n) && (n <=? 57) || (65 <=? n) && (n <=? 90) || (97 <=? n) && (n <=? 122))%N.

(** [[:=]] *)
Definition is_sep (c : ascii) : bool :=
  (c =? ":")%char || (c =? "=")%char.

(** The class of the two quote characters, double and single. *)
Definition is_quote (c : ascii) : bool :=
  (c =? dquote)%char || (c =? squote)%char.

Fixpoint strip_prefix (p s : string) : option string :=
  match p with
  | EmptyString => Some s
  | String a p' =>
      match s with
      | String b s' => if (a =? b)%char then strip_prefix p' s' else None
      | EmptyString => None
      end
  end.

(** [\s*] followed by something that is not white space: the greedy run. *)
Fixpoint skip_space (s : string) : string :=
  match s with
  | String c r => if is_space c then skip_space r else s
  | EmptyString => s
  end.

(** [[a-zA-Z0-9]{n}]: exactly [n] characters of the class, and the rest. *)
Fixpoint take_alnum (n : nat) (s : string) : option (string * string) :=
  match n with
  | O => Some (EmptyString, s)
  | S k =>
      match s with
      | String c r =>
          if is_alnum c then
            match take_alnum k r with
            | Some (t, rest) => Some (String c t, rest)
            | None => None
            end
          else None
      | EmptyString => None
      end
  end.

(** The token pattern anchored at the start of [s]: the key [client_id],
    [\s*], one of [:=], [\s*], a quote of either kind, [[a-zA-Z0-9]{32}]
    (capture group 1, the value), a quote of either kind. *)
Definition client_id_here (s : string) : option string :=
  match strip_prefix "client_id" s with
  | None => None
  | Some s1 =>
      match skip_space s1 with
      | String c s2 =>
          if is_sep c then
            match skip_space s2 with
            | String q s3 =>
                if is_quote q then
                  match take_alnum 32 s3 with
                  | Some (tok, String q' _) => if is_quote q' then Some tok else None
                  | _ => None
                  end
                else None
            | EmptyString => None
            end
          else None
      | EmptyString => None
      end
  end.

(** [scriptContent.match] of the token pattern: the leftmost match, [None]
    for [null]. *)
Fixpoint client_id_match (s : string) : option string :=
  match client_id_here s with
  | Some tok => Some tok
  | None =>
      match s with
      | String _ r => client_id_match r
      | EmptyString => None
      end
  end.

(** The run of characters other than the double quote, and what follows the
    double quote that ends it. *)
Fixpoint until_dquote (s : string) : option (string * string) :=
  match s with
  | EmptyString => None
  | String c r =>
      if (c =? dquote)%char then Some (EmptyString, r)
      else match until_dquote r with
           | Some (run, rest) => Some (String c run, rest)
           | None => None
           end
  end.

Definition ends_with (suffix s : string) : bool :=
  let n := String.length s in
  let k := String.length suffix in
  (k <=? n)%nat && (substring (n - k) k s =? suffix)%string.

Definition src_https : string := "src=" ++ String dquote "https://".

(** The script pattern anchored at the start of [s]: [src=], a double quote,
    the group [https://], any characters but the double quote, [.js], and a
    double quote; the value is capture group 1 and the length of the whole
    match.  The group holds no double quote and is followed by one, so after
    [https://] it is the whole run up to the next double quote, which has to
    end in [.js]. *)
Definition script_src_here (s : string) : option (string * nat) :=
  match strip_prefix src_https s with
  | None => None
  | Some r =>
      match until_dquote r with
      | Some (run, _) =>
          if ends_with ".js" run
          then Some ("https://" ++ run, (String.length src_https + String.length run + 1)%nat)
          else None
      | None => None
      end
  end.

(** [html.matchAll] of the script pattern, capture group 1 of each match: a match is
    looked for at each position from left to right, and the search resumes
    after the end of the previous match ([skip] characters still belong to
    it). *)
Fixpoint script_srcs_from (skip : nat) (s : string) : list string :=
  match s with
  | EmptyString => []
  | String _ r =>
      match skip with
      | S k => script_srcs_from k r
      | O =>
          match script_src_here s with
          | Some (u, len) => u :: script_srcs_from (len - 1) r
          | None => script_srcs_from 0 r
          end
      end
  end.

Definition script_srcs (html : string) : list string := script_srcs_from 0 html.

(** [hay.includes(needle)] *)
Fixpoint includes (needle hay : string) : bool :=
  if prefix needle hay then true
  else match hay with
       | String _ r => includes needle r
       | EmptyString => false
       end.

Definition digit_value (radix : Z) (c : ascii) : option Z :=
  let n := Z.of_N (N_of_ascii c) in
  let d := if (48 <=? n) && (n <=? 57) then n - 48
           else if (97 <=? n) && (n <=? 122) then n - 87
           else if (65 <=? n) && (n <=? 90) then n - 55
           else radix in
  if d <? radix then Some d else None.

Fixpoint parse_digits (radix : Z) (acc : option Z) (s : string) : option Z :=
  match s with
  | String c r =>
      match digit_value radix c with
      | Some d =>
          parse_digits radix (Some (match acc with Some a => a * radix + d | None => d end)) r
      | None => acc
      end
  | EmptyString => acc
  end.

(** [parseInt(s)] without a radix: leading white space, a sign, an optional
    [0x] prefix, then the longest run of digits; [None] is [NaN].  The value
    is exact (the engine's is, below 2^53). *)
Definition parseInt (s : string) : option Z :=
  let s1 := skip_space s in
  let '(neg, s2) :=
    match s1 with
    | String "-" r => (true, r)
    | String "+" r => (false, r)
    | _ => (false, s1)
    end in
  let '(radix, s3) :=
    match s2 with
    | String "0" (String x r) =>
        if (x =? "x")%char || (x =? "X")%char then (16, r) else (10, s2)
    | _ => (10, s2)
    end in
  match parse_digits radix None s3 with
  | Some n => Some (if neg : bool then - n else n)
  | None => None
  end.

(** [n.toString()] of a [parseInt] result. *)
Definition number_to_string (n : option Z) : string :=
  match n with
  | Some z => string_of_Z z
  | None => "NaN"
  end.

(** ** The remote side, the module state, and the monad of the async functions *)

(** What [fetch] is called on: a literal URL, or a base followed by [?] and a
    [URLSearchParams] object (kept as its list of pairs; its percent-encoding
    is not modelled). *)
Inductive target : Type :=
| Url (u : string)
| Query (base : string) (params : list (string * string)).

(** A response: its status, its body as [text()] gives it ([None]: the read
    rejects) and as [json()] gives it ([None]: the read or the parse rejects). *)
Record response : Type := {
  res_status : Z;
  res_text : option string;
  res_json : option value
}.

(** [response.ok] *)
Definition res_ok (r : response) : bool :=
  (200 <=? res_status r) && (res_status r <=? 299).

(** The environment: what a request gets back ([None]: [fetch] rejects) and
    what [Date.now()] reads, both possibly depending on the requests issued so
    far (most recent first). *)
Record env : Type := {
  upstream : list target -> target -> option response;
  clock : list target -> Z
}.

(** The module-level variables [cachedClientId] ([None] for [null]) and
    [clientIdExpiry], and the log of outbound requests, most recent first. *)
Record world : Type := {
  cachedClientId : option string;
  clientIdExpiry : Z;
  requests : list target
}.

Definition initial_world : world :=
  {| cachedClientId := None; clientIdExpiry := 0; requests := [] |}.

Definition M (A : Type) : Type := env -> world -> result A * world.

Definition ret {A} (a : A) : M A := fun _ w => (Ok a, w).
Definition throw {A} (x : exn) : M A := fun _ w => (Throw x, w).
Definition bind {A B} (m : M A) (k : A -> M B) : M B :=
  fun e w =>
    match m e w with
    | (Ok a, w') => k a e w'
    | (Throw x, w') => (Throw x, w')
    end.
Definition lift {A} (r : result A) : M A := fun _ w => (r, w).

Notation "x <- m ;; k" := (bind m (fun x => k))
  (at level 61, m at next level, right associativity).

Definition bind_result {A B} (r : result A) (k : A -> result B) : result B :=
  match r with
  | Ok a => k a
  | Throw x => Throw x
  end.

Notation "x <~ r ;; k" := (bind_result r (fun x => k))
  (at level 61, r at next level, right associativity).

Definition log (t : target) (w : world) : world :=
  {| cachedClientId := cachedClientId w;
     clientIdExpiry := clientIdExpiry w;
     requests := t :: requests w |}.

(** [await fetch(t)]: the request is logged whether it succeeds or not. *)
Definition fetch (t : target) : M response :=
  fun e w =>
    match upstream e (requests w) t with
    | Some r => (Ok r, log t w)
    | None => (Throw FetchRejected, log t w)
    end.

(** [await response.text()] *)
Definition text (r : response) : M string :=
  match res_text r with
  | Some s => ret s
  | None => throw FetchRejected
  end.

(** [await response.json()] *)
Definition json (r : response) : M value :=
  match res_json r with
  | Some v => ret v
  | None => throw JsonSyntaxError
  end.

(** ** [getClientId] *)

Definition homepage : target := Url "https://soundcloud.com/".

Definition ttl : Z := 3600000.

(** [cachedClientId && now < clientIdExpiry]: the credential when the test
    holds. *)
Definition cache_valid (w : world) (now : Z) : option string :=
  match cachedClientId w with
  | Some c => if negb (c =? "")%string && (now <? clientIdExpiry w) then Some c else None
  | None => None
  end.

Definition store (c : string) (expiry : Z) (w : world) : world :=
  {| cachedClientId := Some c; clientIdExpiry := expiry; requests := requests w |}.

(** The body of the [try]: fetch one script and match the token pattern. *)
Definition script_token (scriptUrl : string) : M (option string) :=
  scriptResp <- fetch (Url scriptUrl) ;;
  scriptContent <- text scriptResp ;;
  ret (client_id_match scriptContent).

(** The [for] loop over the script URLs of the page. *)
Fixpoint try_scripts (now : Z) (urls : list string) : M string :=
  match urls with
  | [] => throw (Error "Could not extract client_id")
  | scriptUrl :: rest =>
      if includes "sndcdn.com" scriptUrl then
        fun e w =>
          match script_token scriptUrl e w with
          | (Ok (Some c), w1) => (Ok c, store c (now + ttl) w1)
          | (Ok None, w1) => try_scripts now rest e w1
          | (Throw _, w1) => try_scripts now rest e w1      (* catch: continue *)
          end
      else try_scripts now rest
  end.

(** Lines 23 to 55: the scrape, entered on a cache miss. *)
Definition scrape (now : Z) : M string :=
  response <- fetch homepage ;;
  html <- text response ;;
  try_scripts now (script_srcs html).

(** [getClientId] with the reading [now] of the clock made explicit. *)
Definition getClientId_at (now : Z) : M string :=
  fun e w =>
    match cache_valid w now with
    | Some c => (Ok c, w)
    | None => scrape now e w
    end.

Definition getClientId : M string :=
  fun e w => getClientId_at (clock e (requests w)) e w.

(** ** [searchTracks], [resolveUrl], [getStreamUrl] *)

(** The object literal both [searchTracks] and [getStreamUrl] build for
    [user]: [{ username: track.user?.username, full_name: track.user?.full_name }]. *)
Definition user_of (track : value) : result value :=
  u1 <~ get track "user" ;;
  u2 <~ get track "user" ;;
  Ok (VObj [("username", get_opt u1 "username"); ("full_name", get_opt u2 "full_name")]).

(** The callback of [map] in [searchTracks]. *)
Definition simplify_track (track : value) : result value :=
  id <~ get track "id" ;;
  title <~ get track "title" ;;
  permalink_url <~ get track "permalink_url" ;;
  duration <~ get track "duration" ;;
  artwork_url <~ get track "artwork_url" ;;
  user <~ user_of track ;;
  media <~ get track "media" ;;
  Ok (VObj [("id", id); ("title", title); ("permalink_url", permalink_url);
            ("duration", duration); ("artwork_url", artwork_url);
            ("user", user); ("media", media)]).

(** [items.map(f)] with a callback that may throw. *)
Fixpoint map_result {A B} (f : A -> result B) (items : list A) : result (list B) :=
  match items with
  | [] => Ok []
  | x :: rest =>
      y <~ f x ;;
      ys <~ map_result f rest ;;
      Ok (y :: ys)
  end.

(** [(data.collection || []).map(...)]: lines 82 to 96. *)
Definition simplify_tracks (data : value) : result value :=
  collection <~ get data "collection" ;;
  match (if truthy collection then collection else VArr []) with
  | VArr items =>
      tracks <~ map_result simplify_track items ;;
      Ok (VArr tracks)
  | _ => Throw (NotAFunction "map")
  end.

Definition searchTracks (query : string) (limit : option Z) : M value :=
  clientId <- getClientId ;;
  response <- fetch (Query "https://api-v2.soundcloud.com/search/tracks"
                       [("q", query); ("client_id", clientId);
                        ("limit", number_to_string limit);
                        ("offset", "0"); ("linked_partitioning", "1")]) ;;
  if negb (res_ok response)
  then throw (Error ("SoundCloud API error: " ++ string_of_Z (res_status response)))
  else
    data <- json response ;;
    lift (simplify_tracks data).

Definition resolveUrl (url : string) : M value :=
  clientId <- getClientId ;;
  response <- fetch (Query "https://api-v2.soundcloud.com/resolve"
                       [("url", url); ("client_id", clientId)]) ;;
  if negb (res_ok response)
  then throw (Error ("SoundCloud resolve error: " ++ string_of_Z (res_status response)))
  else json response.

(** [t => t.format?.protocol === 'progressive'] *)
Definition is_progressive (t : value) : result bool :=
  format <~ get t "format" ;;
  Ok (is_str (get_opt format "protocol") "progressive").

(** [items.find(p)] with a callback that may throw; [VUndef] when nothing is
    found. *)
Fixpoint find_result (p : value -> result bool) (items : list value) : result value :=
  match items with
  | [] => Ok VUndef
  | x :: rest =>
      b <~ p x ;;
      if b : bool then Ok x else find_result p rest
  end.

(** Lines 129 to 137 of [getStreamUrl]: the choice among [transcodings], a
    value already known to be truthy. *)
Definition pick_transcoding (transcodings : value) : result value :=
  match transcodings with
  | VArr items =>
      found <~ find_result is_progressive items ;;
      let transcoding := if negb (truthy found) then nth 0 items VUndef else found in
      if negb (truthy (get_opt transcoding "url"))
      then Throw (Error "No transcoding URL found")
      else Ok transcoding
  | _ => Throw (NotAFunction "find")
  end.

(** Lines 124 to 137: from the resolved track to the chosen transcoding. *)
Definition track_transcoding (track : value) : result value :=
  media <~ get track "media" ;;
  if negb (truthy (get_opt media "transcodings"))
  then Throw (Error "No transcodings available")
  else pick_transcoding (get_opt media "transcodings").

Definition getStreamUrl (trackUrl : string) : M value :=
  track <- resolveUrl trackUrl ;;
  transcoding <- lift (track_transcoding track) ;;
  clientId <- getClientId ;;
  target_url <- lift (to_string (get_opt transcoding "url")) ;;
  streamResponse <- fetch (Url (target_url ++ "?client_id=" ++ clientId)) ;;
  if negb (res_ok streamResponse)
  then throw (Error ("Stream URL fetch error: " ++ string_of_Z (res_status streamResponse)))
  else
    streamData <- json streamResponse ;;
    stream_url <- lift (get streamData "url") ;;
    id <- lift (get track "id") ;;
    title <- lift (get track "title") ;;
    permalink_url <- lift (get track "permalink_url") ;;
    duration <- lift (get track "duration") ;;
    artwork_url <- lift (get track "artwork_url") ;;
    user <- lift (user_of track) ;;
    ret (VObj [("url", stream_url);
               ("track", VObj [("id", id); ("title", title);
                               ("permalink_url", permalink_url);
                               ("duration", duration);
                               ("artwork_url", artwork_url);
                               ("user", user)])]).

(** ** The request handler of the worker *)

Record request : Type := {
  method : string;
  pathname : string;
  searchParams : list (string * string)
}.

(** A [Response]: status, headers, and the tree written by [JSON.stringify]
    ([None] for the [null] body). *)
Record http_response : Type := {
  status : Z;
  headers : list (string * string);
  body : option value
}.

Definition corsHeaders : list (string * string) :=
  [("Access-Control-Allow-Origin", "*");
   ("Access-Control-Allow-Methods", "GET, OPTIONS");
   ("Access-Control-Allow-Headers", "Content-Type");
   ("Content-Type", "application/json")].

(** [url.searchParams.get(name)]: the first value under the name. *)
Fixpoint searchParams_get (name : string) (params : list (string * string)) : option string :=
  match params with
  | [] => None
  | (k, v) :: rest => if (k =? name)%string then Some v else searchParams_get name rest
  end.

(** Truthiness of what [searchParams.get] returns: [null] and the empty
    string are falsy. *)
Definition present (p : option string) : option string :=
  match p with
  | Some s => if (s =? "")%string then None else Some s
  | None => None
  end.

(** [new Response(JSON.stringify(v), { status, headers: corsHeaders })] *)
Definition respond (code : Z) (v : value) : http_response :=
  {| status := code; headers := corsHeaders; body := Some (json_shape v) |}.

Definition endpoints : value :=
  VArr [VStr "/search?q=..."; VStr "/resolve?url=..."; VStr "/stream?url=..."; VStr "/health"].

Definition missing (name : string) : http_response :=
  respond 400 (VObj [("error", VStr ("Missing query parameter: " ++ name))]).

(** The body of the [try] block. *)
Definition route (req : request) : M http_response :=
  let path := pathname req in
  if (path =? "/health")%string then
    ret (respond 200 (VObj [("status", VStr "ok")]))
  else if (path =? "/search")%string then
    let query := searchParams_get "q" (searchParams req) in
    let limit :=
      parseInt (match present (searchParams_get "limit" (searchParams req)) with
                | Some s => s
                | None => "4"
                end) in
    match present query with
    | None => ret (missing "q")
    | Some q =>
        tracks <- searchTracks q limit ;;
        ret (respond 200 (VObj [("tracks", tracks)]))
    end
  else if (path =? "/resolve")%string then
    match present (searchParams_get "url" (searchParams req)) with
    | None => ret (missing "url")
    | Some trackUrl =>
        track <- resolveUrl trackUrl ;;
        ret (respond 200 (VObj [("track", track)]))
    end
  else if (path =? "/stream")%string then
    match present (searchParams_get "url" (searchParams req)) with
    | None => ret (missing "url")
    | Some trackUrl =>
        stream <- getStreamUrl trackUrl ;;
        ret (respond 200 stream)
    end
  else
    ret (respond 404 (VObj [("error", VStr "Not found"); ("endpoints", endpoints)])).

(** [fetch(request, env, ctx)] of the default export. *)
Definition worker_fetch (req : request) (e : env) (w : world) : http_response * world :=
  if (method req =? "OPTIONS")%string then
    ({| status := 200; headers := corsHeaders; body := None |}, w)
  else
    match route req e w with
    | (Ok r, w') => (r, w')
    | (Throw x, w') => (respond 500 (VObj [("error", VStr (exn_message x))]), w')
    end.

(** ** Interleaved calls of [getClientId]

    An async call runs without interruption up to its next [await]; other
    calls may run while it is suspended.  A call of [getClientId] is suspended
    either on the landing page or on one script; every event below runs one
    call from one suspension to the next.  ([fetch] and the body read that
    follows it are two awaits; nothing of the module state is touched between
    them, so they are resumed as one.) *)

Inductive call_state : Type :=
| AwaitPage (now : Z)
| AwaitScript (now : Z) (rest : list string)
| Returned (r : result string).

Record pool : Type := {
  module : world;
  calls : list call_state
}.

Inductive event : Type :=
| Call (now : Z)                            (* a new call starts; the clock reads [now] *)
| Resume (i : nat) (got : option string).   (* call [i] is handed the text it awaits, or a rejection *)

(** The loop from its head: skip the URLs that are not on the CDN, request
    the first that is and suspend, or throw when none is left. *)
Fixpoint next_script (now : Z) (urls : list string) (w : world) : call_state * world :=
  match urls with
  | [] => (Returned (Throw (Error "Could not extract client_id")), w)
  | scriptUrl :: rest =>
      if includes "sndcdn.com" scriptUrl
      then (AwaitScript now rest, log (Url scriptUrl) w)
      else next_script now rest w
  end.

(** One call resumed with what it awaited. *)
Definition resume (c : call_state) (got : option string) (w : world) : call_state * world :=
  match c with
  | AwaitPage now =>
      match got with
      | Some html => next_script now (script_srcs html) w
      | None => (Returned (Throw FetchRejected), w)
      end
  | AwaitScript now rest =>
      match got with
      | Some scriptContent =>
          match client_id_match scriptContent with
          | Some c => (Returned (Ok c), store c (now + ttl) w)
          | None => next_script now rest w
          end
      | None => next_script now rest w
      end
  | Returned r => (Returned r, w)
  end.

Fixpoint set_nth {A} (i : nat) (x : A) (l : list A) : list A :=
  match l, i with
  | [], _ => []
  | _ :: t, O => x :: t
  | h :: t, S k => h :: set_nth k x t
  end.

Definition step (p : pool) (ev : event) : pool :=
  match ev with
  | Call now =>
      match cache_valid (module p) now with
      | Some c => {| module := module p; calls := calls p ++ [Returned (Ok c)] |}
      | None => {| module := log homepage (module p); calls := calls p ++ [AwaitPage now] |}
      end
  | Resume i got =>
      match nth_error (calls p) i with
      | Some c =>
          let '(c', w') := resume c got (module p) in
          {| module := w'; calls := set_nth i c' (calls p) |}
      | None => p
      end
  end.

Definition run (evs : list event) (p : pool) : pool := fold_left step evs p.

Definition is_homepage (t : target) : bool :=
  match t with
  | Url u => (u =? "https://soundcloud.com/")%string
  | Query _ _ => false
  end.

(** The number of scrapes begun: requests for the landing page. *)
Definition scrapes (w : world) : nat := List.length (filter is_homepage (requests w)).

Definition is_call (ev : event) : bool :=
  match ev with Call _ => true | Resume _ _ => false end.

(** Every call started along the events finds no valid credential. *)
Fixpoint all_miss (evs : list event) (p : pool) : Prop :=
  match evs with
  | [] => True
  | ev :: rest =>
      match ev with
      | Call now => cache_valid (module p) now = None
      | Resume _ _ => True
      end /\ all_miss rest (step p ev)
  end.

(** What call [i] is handed along the events. *)
Definition handed (i : nat) (evs : list event) : list (option string) :=
  flat_map (fun ev => match ev with
                      | Resume j got => if (j =? i)%nat then [got] else []
                      | Call _ => []
                      end) evs.

(** A call followed on its own, the module state left aside. *)
Definition resume_alone (c : call_state) (got : option string) : call_state :=
  fst (resume c got initial_world).

(** The text the environment [e] hands to the call whose request is the most
    recent one of the log. *)
Definition answer (e : env) (w : world) : option string :=
  match requests w with
  | t :: earlier =>
      match upstream e earlier t with
      | Some r => res_text r
      | None => None
      end
  | [] => None
  end.

(** A single call driven to its end against [e], nothing else running. *)
Fixpoint drive (fuel : nat) (e : env) (p : pool) : pool :=
  match fuel with
  | O => p
  | S k =>
      match calls p with
      | [Returned _] => p
      | _ => drive k e (step p (Resume 0 (answer e (module p))))
      end
  end.

(** ** The format choice of [/youtube/video] (Express server) *)

Module YouTube.

(** The fields of a ytdl format the endpoint reads; [None] is [undefined]. *)
Record videoFormat : Type := {
  hasVideo : bool;
  hasAudio : bool;
  height : option Z;
  url : option string;
  qualityLabel : option string;
  container : option string
}.

Record videoInfo : Type := {
  title : string;
  formats : list videoFormat
}.

(** [ytdl.chooseFormat(formats, { quality: 'highestvideo', filter:
    'audioandvideo' })] of the library ytdl-core-enhanced, which is not part
    of the repository: the best format that has both audio and video, or an
    exception when there is none. *)
Definition chooser : Type := list videoFormat -> result videoFormat.

(** [f.height <= targetHeight]; false when either side is [undefined] or
    [NaN]. *)
Definition height_le (h target : option Z) : bool :=
  match h, target with
  | Some a, Some b => a <=? b
  | _, _ => false
  end.

(** [f => f.hasVideo && f.hasAudio && f.height <= targetHeight] *)
Definition fits (targetHeight : option Z) (f : videoFormat) : bool :=
  hasVideo f && hasAudio f && height_le (height f) targetHeight.

(** Lines 322 to 331: the value of [format]. *)
Definition choose_video (chooseFormat : chooser) (quality : string)
    (fs : list videoFormat) : result videoFormat :=
  if (quality =? "highest")%string then chooseFormat fs
  else
    let targetHeight := parseInt quality in
    match find (fits targetHeight) fs with
    | Some f => Ok f
    | None => chooseFormat fs
    end.

Record reply : Type := {
  code : Z;
  payload : value
}.

Definition opt_str (o : option string) : value :=
  match o with Some s => VStr s | None => VUndef end.

Definition failure (c : Z) (msg : string) : reply :=
  {| code := c; payload := VObj [("error", VStr msg)] |}.

(** [app.get("/youtube/video", ...)]: [q_url] and [q_quality] are
    [req.query.url] and [req.query.quality], [getInfo] is [ytdl.getInfo]. *)
Definition youtube_video (chooseFormat : chooser) (getInfo : string -> result videoInfo)
    (q_url q_quality : option string) : reply :=
  let quality := match present q_quality with Some q => q | None => "highest" end in
  match present q_url with
  | None => failure 400 "URL parameter is missing"
  | Some u =>
      match (info <~ getInfo u ;;
             format <~ choose_video chooseFormat quality (formats info) ;;
             Ok (info, format)) with
      | Throw x => failure 500 (exn_message x)
      | Ok (info, format) =>
          match present (url format) with
          | None => failure 404 "No suitable format found"
          | Some direct =>
              {| code := 200;
                 payload := json_shape
                   (VObj [("success", VBool true); ("title", VStr (title info));
                          ("url", VStr direct);
                          ("quality", opt_str (qualityLabel format));
                          ("container", opt_str (container format))]) |}
          end
      end
  end.

End YouTube.

(** ** Environments used in the examples *)

Definition silent_env : env :=
  {| upstream := fun _ _ => None; clock := fun _ => 0 |}.

Definition demo_script_url : string := "https://a-v2.sndcdn.com/assets/app.js".

Definition demo_page : string :=
  "<html><script crossorigin src=" ++ String dquote (demo_script_url ++ String dquote "></script></html>").

Definition demo_token : string := "0123456789abcdefghijklmnopqrstuv".

Definition demo_script : string :=
  "var cfg={client_id:" ++ String dquote (demo_token ++ String dquote ",env:1};").

Definition page_response (s : string) : response :=
  {| res_status := 200; res_text := Some s; res_json := None |}.

Definition api_response (code : Z) (v : value) : response :=
  {| res_status := code; res_text := Some "(json)"; res_json := Some v |}.

Definition is_api (t : target) : bool :=
  match t with Query _ _ => true | Url _ => false end.

(** The landing page and its one script are served as above; the [n]-th
    request to the API (counting from 0) is answered by [api n]; the clock
    advances by one second per request. *)
Definition demo_env (api : nat -> response) : env :=
  {| upstream := fun earlier t =>
       match t with
       | Url u =>
           if (u =? "https://soundcloud.com/")%string then Some (page_response demo_page)
           else if (u =? demo_script_url)%string then Some (page_response demo_script)
           else None
       | Query _ _ => Some (api (List.length (filter is_api earlier)))
       end;
     clock := fun earlier => 1000 * Z.of_nat (List.length earlier) |}.

Definition demo_track : value :=
  VObj [("id", VNum 7); ("title", VStr "Night drive");
        ("permalink_url", VStr "https://soundcloud.com/a/night-drive")].

(** ** Responses and predicates named in the statements *)

Definition not_found_response : http_response :=
  {| status := 404;
     headers := corsHeaders;
     body := Some (VObj [("error", VStr "Not found");
                         ("endpoints",
                          VArr [VStr "/search?q=..."; VStr "/resolve?url=...";
                                VStr "/stream?url=..."; VStr "/health"])]) |}.

Definition missing_response (name : string) : http_response :=
  {| status := 400;
     headers := corsHeaders;
     body := Some (VObj [("error", VStr ("Missing query parameter: " ++ name))]) |}.

Definition recognized (path : string) : Prop :=
  path = "/health" \/ path = "/search" \/ path = "/resolve" \/ path = "/stream".


(** *** Requests and upstreams of the resolve and search statements *)

(** The request [resolveUrl] sends for [url] with the credential [c]. *)
Definition resolve_request (url c : string) : target :=
  Query "https://api-v2.soundcloud.com/resolve" [("url", url); ("client_id", c)].

(** The request [searchTracks] sends. *)
Definition search_request (query c : string) (limit : option Z) : target :=
  Query "https://api-v2.soundcloud.com/search/tracks"
    [("q", query); ("client_id", c); ("limit", number_to_string limit);
     ("offset", "0"); ("linked_partitioning", "1")].

Definition error_response (code : Z) (msg : string) : http_response :=
  {| status := code; headers := corsHeaders; body := Some (VObj [("error", VStr msg)]) |}.

(** An upstream that rejects the credential once: 401 to the first API
    request, the track to every later one. *)
Definition unauthorized_once : env :=
  demo_env (fun n => match n with
                     | O => api_response 401 (VObj [("error", VStr "unauthorized")])
                     | S _ => api_response 200 demo_track
                     end).

(** An upstream that does not know the track. *)
Definition always_404 : env :=
  demo_env (fun _ => api_response 404 (VObj [])).


(** *** The transcoding policy and the normalized search entry *)

(** [t.format?.protocol === 'progressive'] on a variant that is not [null]. *)
Definition progressive (t : value) : bool :=
  is_str (get_opt (get_opt t "format") "protocol") "progressive".

(** A usable source URL: [t.url] is truthy. *)
Definition usable (t : value) : bool := truthy (get_opt t "url").

(** The variant the policy designates: the first progressive one, or else the
    first one. *)
Definition designated (items : list value) : option value :=
  match find progressive items with
  | Some t => Some t
  | None => hd_error items
  end.

Definition no_variant_url : result value := Throw (Error "No transcoding URL found").

Definition not_null (t : value) : Prop := nullish t = false.

(** The names of the properties [JSON.stringify] writes for an object. *)
Definition written_keys (v : value) : list string :=
  match json_shape v with
  | VObj fields => map fst fields
  | _ => []
  end.

(** What one entry of the search result has to agree on with the upstream
    track it comes from. *)
Definition normalizes (track entry : value) : Prop :=
  get_opt entry "id" = get_opt track "id" /\
  get_opt entry "title" = get_opt track "title" /\
  get_opt entry "permalink_url" = get_opt track "permalink_url" /\
  get_opt (get_opt entry "user") "username" = get_opt (get_opt track "user") "username" /\
  (get_opt (get_opt track "user") "username" = VUndef ->
   ~ In "username" (written_keys (get_opt entry "user"))).

Definition hls_variant : value :=
  VObj [("format", VObj [("protocol", VStr "hls")]);
        ("url", VStr "https://api-v2.soundcloud.com/media/7/stream/hls")].

Definition progressive_without_url : value :=
  VObj [("format", VObj [("protocol", VStr "progressive")])].

Definition progressive_variant : value :=
  VObj [("format", VObj [("protocol", VStr "progressive")]);
        ("url", VStr "https://api-v2.soundcloud.com/media/7/stream/progressive")].

Definition four_tracks : value :=
  VObj [("collection",
         VArr [VObj [("id", VNum 1); ("title", VStr "a"); ("permalink_url", VStr "https://soundcloud.com/u/a");
                     ("user", VObj [("username", VStr "u")])];
               VObj [("id", VNum 2); ("title", VStr "b"); ("permalink_url", VStr "https://soundcloud.com/u/b")];
               VObj [("id", VNum 3); ("title", VStr "c"); ("permalink_url", VStr "https://soundcloud.com/v/c");
                     ("user", VObj [("full_name", VStr "V")])];
               VObj [("id", VNum 4); ("title", VStr "d"); ("permalink_url", VStr "https://soundcloud.com/v/d");
                     ("user", VNull)]])].

Definition lofi_env : env := demo_env (fun _ => api_response 200 four_tracks).


(** *** The height policy *)


Definition muxed (h : Z) : YouTube.videoFormat :=
  {| YouTube.hasVideo := true; YouTube.hasAudio := true;
     YouTube.height := Some h;
     YouTube.url := Some ("https://rr1.googlevideo.com/videoplayback?h=" ++ string_of_Z h);
     YouTube.qualityLabel := Some (string_of_Z h ++ "p");
     YouTube.container := Some "mp4" |}.

Definition ladder : list YouTube.videoFormat := [muxed 1080; muxed 720; muxed 480].

(** A stand-in for the library's chooser on a list already in descending
    quality: the first format with audio and video. *)
Definition first_muxed : YouTube.chooser :=
  fun fs =>
    match find (fun f => YouTube.hasVideo f && YouTube.hasAudio f) fs with
    | Some f => Ok f
    | None => Throw (Error "No such format found: highestvideo")
    end.


(** *** The token pattern as a shape, and what a candidate yields *)

Fixpoint all_chars (p : ascii -> bool) (s : string) : bool :=
  match s with
  | EmptyString => true
  | String c r => p c && all_chars p r
  end.

(** The token pattern read as a shape: [s] starts with the key [client_id],
    white space, [:] or [=], white space, a quote, the 32 alphanumeric
    characters [c], and a quote. *)
Definition token_at (s c : string) : Prop :=
  exists ws1 sep ws2 q1 q2 rest,
    s = "client_id" ++ ws1 ++ String sep (ws2 ++ String q1 (c ++ String q2 rest)) /\
    all_chars is_space ws1 = true /\ is_sep sep = true /\
    all_chars is_space ws2 = true /\ is_quote q1 = true /\
    String.length c = 32%nat /\ all_chars is_alnum c = true /\
    is_quote q2 = true.

(** [c] is the token of the leftmost place of [s] where the pattern holds. *)
Definition first_token (s c : string) : Prop :=
  exists pre rest,
    s = pre ++ rest /\ token_at rest c /\
    forall pre' rest' c',
      s = pre' ++ rest' -> (String.length pre' < String.length pre)%nat ->
      ~ token_at rest' c'.


(** An upstream whose answer to a request does not depend on what was
    requested before. *)
Definition static (e : env) : Prop :=
  forall earlier earlier' t, upstream e earlier t = upstream e earlier' t.

Definition on_cdn (u : string) : bool := includes "sndcdn.com" u.

(** The token a candidate script yields in a static environment: it is on
    the CDN, can be fetched and read, and the token pattern matches. *)
Definition yields (e : env) (u : string) : option string :=
  if on_cdn u then
    match upstream e [] (Url u) with
    | Some r =>
        match res_text r with
        | Some content => client_id_match content
        | None => None
        end
    | None => None
    end
  else None.

Definition no_client_id : exn := Error "Could not extract client_id".

(** [getClientId] called once at each of the given readings of the clock. *)
Fixpoint getClientId_each (times : list Z) (e : env) (w : world)
  : list (result string) * world :=
  match times with
  | [] => ([], w)
  | t :: later =>
      let '(r, w1) := getClientId_at t e w in
      let '(rs, w2) := getClientId_each later e w1 in
      (r :: rs, w2)
  end.

(** The demo environment with a constant API, and one where the script
    cannot be fetched. *)
Definition scrape_env : env := demo_env (fun _ => api_response 200 demo_track).

Definition broken_cdn_env : env :=
  {| upstream := fun _ t =>
       match t with
       | Url u => if (u =? "https://soundcloud.com/")%string
                  then Some (page_response demo_page) else None
       | Query _ _ => None
       end;
     clock := fun _ => 0 |}.


(** *** Concrete interleaving and a whole stream request *)

(** Two calls started before either is resumed, each then served the landing
    page and a script; the second is served a script with another token. *)
Definition other_token : string := "vutsrqponmlkjihgfedcba9876543210".

Definition other_script : string :=
  "var cfg={client_id:" ++ String dquote (other_token ++ String dquote ",env:2};").

Definition two_callers : list event :=
  [Call 0; Call 1;
   Resume 0 (Some demo_page); Resume 1 (Some demo_page);
   Resume 0 (Some demo_script); Resume 1 (Some other_script)].

Definition idle_pool : pool := {| module := initial_world; calls := [] |}.


(** An upstream serving a whole [/stream] request: the page, the script, the
    track with two transcodings, and the signed link of the progressive one. *)
Definition stream_track : value :=
  VObj [("id", VNum 7); ("title", VStr "Night drive");
        ("permalink_url", VStr "https://soundcloud.com/a/night-drive");
        ("user", VObj [("username", VStr "a")]);
        ("media", VObj [("transcodings", VArr [hls_variant; progressive_variant])])].

Definition signed_link : string := "https://cf-media.sndcdn.com/7.128.mp3?Policy=x".

Definition stream_env : env :=
  {| upstream := fun _ t =>
       match t with
       | Url u =>
           if (u =? "https://soundcloud.com/")%string then Some (page_response demo_page)
           else if (u =? demo_script_url)%string then Some (page_response demo_script)
           else if (u =? "https://api-v2.soundcloud.com/media/7/stream/progressive?client_id="
                         ++ demo_token)%string
                then Some (api_response 200 (VObj [("url", VStr signed_link)]))
           else None
       | Query _ _ => Some (api_response 200 stream_track)
       end;
     clock := fun earlier => 1000 * Z.of_nat (List.length earlier) |}.


Definition opt_url (f : YouTube.videoFormat) : value := YouTube.opt_str (YouTube.url f).


(** ** Invariants of the module state and of the request log *)

(** The cache holds nothing, or a token of the shape the pattern captures. *)
Definition cache_wf (w : world) : Prop :=
  forall c, cachedClientId w = Some c ->
            String.length c = 32%nat /\ all_chars is_alnum c = true.

(** The number of requests whose URL was built from a [URLSearchParams]
    object: the metadata calls of [searchTracks] and [resolveUrl]. *)
Definition api_count (w : world) : nat := List.length (filter is_api (requests w)).

(** [m] moves every world to one related to it by [R n]; the grade [n]
    bounds what the relation counts. *)
Definition respects (R : nat -> world -> world -> Prop) (n : nat) {A} (m : M A) : Prop :=
  forall e w, R n w (snd (m e w)).

Definition keeps_cache (_ : nat) (w w' : world) : Prop := cache_wf w -> cache_wf w'.

(** The log only grows, by at most [n] API requests. *)
Definition extends_by (n : nat) (w w' : world) : Prop :=
  (exists newer, requests w' = (newer ++ requests w)%list) /\
  (api_count w' <= api_count w + n)%nat.

(** The two endpoints of the API that the worker queries. *)
Definition api_endpoint (base : string) : Prop :=
  base = "https://api-v2.soundcloud.com/search/tracks" \/
  base = "https://api-v2.soundcloud.com/resolve".

(** The log grows by [newer], which holds at most [n] requests whose URL was
    built from a [URLSearchParams] object, each of them to one of the two
    endpoints of the API. *)
Definition grows_by (n : nat) (w w' : world) : Prop :=
  exists newer,
    requests w' = (newer ++ requests w)%list /\
    (List.length (filter is_api newer) <= n)%nat /\
    (forall base params, In (Query base params) newer -> api_endpoint base).

(** The three endpoints that need the credential, with the parameter each
    requires. *)
Definition data_endpoint (req : request) (name : string) : Prop :=
  (pathname req = "/search" /\ name = "q") \/
  ((pathname req = "/resolve" \/ pathname req = "/stream") /\ name = "url").


(** ** Shapes of the script URLs *)

(** [needle] occurs in [hay]. *)
Definition occurs (needle hay : string) : Prop :=
  exists pre post, hay = pre ++ needle ++ post.

(** The attribute [src] with the value [u] between double quotes. *)
Definition quoted_src (u : string) : string :=
  "src=" ++ String dquote (u ++ String dquote "").

Definition not_dquote (c : ascii) : bool := negb (c =? dquote)%char.

(** An [https] URL ending in [.js] and free of double quotes. *)
Definition https_script (u : string) : Prop :=
  (exists middle, u = "https://" ++ middle ++ ".js") /\ all_chars not_dquote u = true.


(** ** The result of [getStreamUrl] *)

(** The object [getStreamUrl] returns for the exchange answer [data] and the
    resolved [track]: the link, and the track without its [media]. *)
Definition stream_result (data track : value) : value :=
  VObj [("url", get_opt data "url");
        ("track",
         VObj [("id", get_opt track "id"); ("title", get_opt track "title");
               ("permalink_url", get_opt track "permalink_url");
               ("duration", get_opt track "duration");
               ("artwork_url", get_opt track "artwork_url");
               ("user", VObj [("username", get_opt (get_opt track "user") "username");
                              ("full_name", get_opt (get_opt track "user") "full_name")])])].

(** The request that exchanges a transcoding for its signed link. *)
Definition exchange_request (link c : string) : target :=
  Url (link ++ "?client_id=" ++ c).

(** The exceptions the choice of a transcoding can end with. *)
Definition transcoding_failure (x : exn) : Prop :=
  x = Error "No transcodings available" \/ x = Error "No transcoding URL found" \/
  x = NullishRead "media" \/ x = NullishRead "format" \/ x = NotAFunction "find".

(** The text of [limit] as [/search] reads it: the parameter, or [4] when it
    is missing or empty. *)
Definition limit_text (req : request) : string :=
  match present (searchParams_get "limit" (searchParams req)) with
  | Some s => s
  | None => "4"
  end.


(** ** Where the state of interleaved calls comes from *)

(** The clock reading a suspended call started with. *)
Definition started (c : call_state) : option Z :=
  match c with
  | AwaitPage now | AwaitScript now _ => Some now
  | Returned _ => None
  end.

(** The clock readings of the calls started along the events. *)
Definition call_times (evs : list event) : list Z :=
  flat_map (fun ev => match ev with Call now => [now] | Resume _ _ => [] end) evs.

(** Every suspended call started at a reading of [times], and the expiry is
    [x0] or an hour after one of them. *)
Definition expiry_from (x0 : Z) (times : list Z) (p : pool) : Prop :=
  (forall c now, In c (calls p) -> started c = Some now -> In now times) /\
  (clientIdExpiry (module p) = x0 \/
   exists now, In now times /\ clientIdExpiry (module p) = now + ttl).


(** ** The file name of [/youtube/stream] (Express server) *)

Module Express.

(** [\w] *)
Definition is_word (c : ascii) : bool := is_alnum c || (c =? "_")%char.

(** The characters the pattern [[^\w\s-]] does not match, which [replace]
    leaves in place. *)
Definition kept (c : ascii) : bool := is_word c || is_space c || (c =? "-")%char.

(** [title.replace(/[^\w\s-]/g, '')] *)
Fixpoint strip (s : string) : string :=
  match s with
  | EmptyString => EmptyString
  | String c r => if kept c then String c (strip r) else strip r
  end.

(** Line 390: [info.videoDetails.title.replace(/[^\w\s-]/g, '').substring(0, 50)] *)
Definition file_title (title : string) : string := substring 0 50 (strip title).

End Express.

(** A character that cannot end a quoted file name or add a path step:
    not the double quote, the slash, the backslash (code 92) or the
    semicolon. *)
Definition name_safe (c : ascii) : bool :=
  negb (c =? dquote)%char && negb (c =? "/")%char && negb (c =? ascii_of_nat 92)%char &&
  negb (c =? ";")%char.



(** The response to a preflight request: [new Response(null, { headers:
    corsHeaders })]. *)
Definition options_response : http_response :=
  {| status := 200; headers := corsHeaders; body := None |}.


(** The numbers on which [parseInt] and [toString] of the engine are exact,
    digit for digit, and so are the two definitions above: [NaN] and the
    integers up to 2^53 in absolute value.  Beyond, the engine rounds to the
    nearest double and prints the shortest digits that read back; the
    statements about the text of a number are made within this range. *)
Definition safe_number (v : option Z) : Prop :=
  match v with
  | Some n => - 2 ^ 53 <= n <= 2 ^ 53
  | None => True
  end.


(** ** Quiescence *)

(** A call that has returned: nothing of it is still in flight. *)
Definition returned (c : call_state) : Prop :=
  match c with
  | Returned _ => True
  | AwaitPage _ | AwaitScript _ _ => False
  end.

(** Two scrapes that overlap, and two later calls served from the cache: the
    one at reading 2 after the first scrape has stored its token, the one at
    reading 3 after the second scrape has stored another. *)
Definition overlapping_callers : list event :=
  [Call 0; Call 1;
   Resume 0 (Some demo_page); Resume 1 (Some demo_page);
   Resume 0 (Some demo_script);
   Call 2;
   Resume 1 (Some other_script);
   Call 3].


(** ** The candidates of a page and what they give, declaratively *)

(** The script pattern matches at the start of [s] with the group [u]. *)
Definition src_match (s u : string) : Prop :=
  https_script u /\ exists post, s = quoted_src u ++ post.

(** [us] are the groups of the successive matches of the script pattern in
    [s], as [matchAll] enumerates them: each match is the leftmost one in
    what follows the end of the previous match. *)
Inductive Scan : string -> list string -> Prop :=
| Scan_none (s : string) :
    (forall pre rest u, s = pre ++ rest -> ~ src_match rest u) ->
    Scan s []
| Scan_match (s pre u post : string) (us : list string) :
    s = pre ++ quoted_src u ++ post ->
    https_script u ->
    (forall pre' rest' u',
        s = pre' ++ rest' -> (String.length pre' < String.length pre)%nat ->
        ~ src_match rest' u') ->
    Scan post us ->
    Scan s (u :: us).

(** The requests already sent when the candidate that follows [before] is
    reached: those of [h0], and one for each earlier candidate on the CDN,
    most recent first. *)
Definition history (h0 : list target) (before : list string) : list target :=
  (rev (map Url (filter on_cdn before)) ++ h0)%list.

(** Requested after the requests [h], the candidate [u] gives the token [c]:
    it contains [sndcdn.com], it is fetched and read, and [c] is the token of
    the leftmost place of its text where the token pattern holds. *)
Definition gives_at (e : env) (h : list target) (u c : string) : Prop :=
  occurs "sndcdn.com" u /\
  exists answer content,
    upstream e h (Url u) = Some answer /\ res_text answer = Some content /\
    first_token content c.

(** No candidate of [cands] gives a token when its turn comes. *)
Definition silent (e : env) (h0 : list target) (cands : list string) : Prop :=
  forall b1 v b2 c, cands = (b1 ++ v :: b2)%list -> ~ gives_at e (history h0 b1) v c.

(** The boolean reading of [gives_at]. *)
Definition yields_at (e : env) (h : list target) (u : string) : option string :=
  if on_cdn u then
    match upstream e h (Url u) with
    | Some r =>
        match res_text r with
        | Some content => client_id_match content
        | None => None
        end
    | None => None
    end
  else None.

(** * Properties *)

(** ** The request handler *)

Lemma route_headers (req : request) (e : env) (w w' : world) (r : http_response) :
  route req e w = (Ok r, w') -> headers r = corsHeaders.
Proof.
  unfold route.
  repeat match goal with
         | |- context [if ?b then _ else _] => destruct b
         | |- context [match present ?x with _ => _ end] => destruct (present x)
         end;
    unfold bind, ret;
    repeat match goal with
           | |- context [match ?m e w with _ => _ end] => destruct (m e w) as [[?|?] ?]
           end;
    intros H; inversion H; reflexivity.
Qed.

Lemma worker_headers (req : request) (e : env) (w : world) :
  headers (fst (worker_fetch req e w)) = corsHeaders.
Proof.
  unfold worker_fetch.
  destruct (method req =? "OPTIONS")%string; [reflexivity|].
  destruct (route req e w) as [[r|x] w'] eqn:E; simpl.
  - eapply route_headers; eassumption.
  - reflexivity.
Qed.

Lemma present_none_of_get_none (o : option string) : o = None -> present o = None.
Proof. intros ->; reflexivity. Qed.

Lemma route_unknown (req : request) :
  ~ recognized (pathname req) ->
  route req = ret not_found_response.
Proof.
  unfold recognized, route; intros H.
  destruct (String.eqb_spec (pathname req) "/health"); [tauto|].
  destruct (String.eqb_spec (pathname req) "/search"); [tauto|].
  destruct (String.eqb_spec (pathname req) "/resolve"); [tauto|].
  destruct (String.eqb_spec (pathname req) "/stream"); [tauto|].
  reflexivity.
Qed.

(** What [/search], [/resolve] and [/stream] do when the required parameter
    is falsy: the 400 response, before anything is sent upstream. *)
Lemma route_falsy_param (req : request) (name : string) :
  (pathname req = "/search" /\ name = "q") \/
  ((pathname req = "/resolve" \/ pathname req = "/stream") /\ name = "url") ->
  present (searchParams_get name (searchParams req)) = None ->
  route req = ret (missing_response name).
Proof.
  unfold route.
  intros [[P ->]|[[P|P] ->]] H; rewrite P; simpl; rewrite H; reflexivity.
Qed.

Lemma worker_options (req : request) (e : env) (w : world) :
  method req = "OPTIONS" -> worker_fetch req e w = (options_response, w).
Proof. intros M. unfold worker_fetch. rewrite M. reflexivity. Qed.

(** C8 (as amended).  Every response of the worker carries the cross-origin
    headers; for every request whose method is not OPTIONS, a [/search]
    without [q] is answered 400 with the body [{error: "Missing query
    parameter: q"}], and a path that is not one of the four endpoints is
    answered 404 with the list of endpoints, in both cases without changing
    the module state or sending anything upstream; and an OPTIONS request,
    to any path and with any parameters, is answered 200 with an empty
    body. *)
Theorem worker_bad_request_replies (req : request) (e : env) (w : world) :
  headers (fst (worker_fetch req e w)) = corsHeaders /\
  (method req <> "OPTIONS" ->
   (pathname req = "/search" ->
    searchParams_get "q" (searchParams req) = None ->
    worker_fetch req e w = (missing_response "q", w)) /\
   (~ recognized (pathname req) ->
    worker_fetch req e w = (not_found_response, w))) /\
  (method req = "OPTIONS" -> worker_fetch req e w = (options_response, w)).
Proof.
  split; [apply worker_headers|]. split; [|apply worker_options].
  intros Hm. unfold worker_fetch.
  destruct (String.eqb_spec (method req) "OPTIONS"); [contradiction|].
  split.
  - intros P Q.
    rewrite (route_falsy_param req "q"); [reflexivity|auto|].
    now apply present_none_of_get_none.
  - intros U. rewrite (route_unknown req U). reflexivity.
Qed.

Lemma worker_bad_request_replies_witness :
  let lost := {| method := "GET"; pathname := "/search"; searchParams := [("limit", "9")] |} in
  let stray := {| method := "GET"; pathname := "/youtube/video"; searchParams := [] |} in
  let preflight := {| method := "OPTIONS"; pathname := "/stream"; searchParams := [] |} in
  worker_fetch lost silent_env initial_world = (missing_response "q", initial_world) /\
  worker_fetch stray silent_env initial_world = (not_found_response, initial_world) /\
  worker_fetch preflight silent_env initial_world = (options_response, initial_world).
Proof.
  split; [|split].
  - destruct (worker_bad_request_replies
                {| method := "GET"; pathname := "/search"; searchParams := [("limit", "9")] |}
                silent_env initial_world) as (_ & other & _).
    destruct (other ltac:(discriminate)) as (missing_q & _).
    exact (missing_q eq_refl eq_refl).
  - destruct (worker_bad_request_replies
                {| method := "GET"; pathname := "/youtube/video"; searchParams := [] |}
                silent_env initial_world) as (_ & other & _).
    destruct (other ltac:(discriminate)) as (_ & unknown).
    apply unknown.
    unfold recognized; simpl; intros [H|[H|[H|H]]]; discriminate.
  - destruct (worker_bad_request_replies
                {| method := "OPTIONS"; pathname := "/stream"; searchParams := [] |}
                silent_env initial_world) as (_ & _ & options).
    exact (options eq_refl).
Defined.

(** C8, as stated, fails on a preflight request: an OPTIONS request to
    [/search] without [q] is answered 200 with an empty body (line 183 returns
    before the path is looked at), not 400. *)
Lemma options_search_without_q_is_200 :
  let req := {| method := "OPTIONS"; pathname := "/search"; searchParams := [] |} in
  pathname req = "/search" /\
  searchParams_get "q" (searchParams req) = None /\
  fst (worker_fetch req silent_env initial_world)
    = {| status := 200; headers := corsHeaders; body := None |} /\
  status (fst (worker_fetch req silent_env initial_world)) <> 400.
Proof.
  repeat split; simpl; discriminate.
Qed.

(** C10 (as amended).  For a request to [/search] with [q] equal to the
    empty string, or to [/resolve] or [/stream] with [url] equal to the empty
    string: when its method is not OPTIONS, the response is the 400 response
    of the missing parameter, the same as when the parameter is absent, and
    no request is sent upstream; when its method is OPTIONS, the response is
    200 with an empty body, as for every OPTIONS request whatever its path
    and parameters. *)
Theorem worker_empty_param_is_missing (req : request) (e : env) (w : world) (name : string) :
  (pathname req = "/search" /\ name = "q") \/
  ((pathname req = "/resolve" \/ pathname req = "/stream") /\ name = "url") ->
  searchParams_get name (searchParams req) = Some "" ->
  (method req <> "OPTIONS" ->
   worker_fetch req e w = (missing_response name, w) /\
   worker_fetch req e w =
     worker_fetch {| method := method req; pathname := pathname req; searchParams := [] |} e w /\
   requests (snd (worker_fetch req e w)) = requests w) /\
  (method req = "OPTIONS" -> worker_fetch req e w = (options_response, w)) /\
  (forall other : request,
      method other = "OPTIONS" -> worker_fetch other e w = (options_response, w)).
Proof.
  intros Hp Hq.
  split; [|split; [apply worker_options|intros other; apply worker_options]].
  intros Hm.
  assert (A : worker_fetch req e w = (missing_response name, w)).
  { unfold worker_fetch.
    destruct (String.eqb_spec (method req) "OPTIONS"); [contradiction|].
    rewrite (route_falsy_param req name Hp); [reflexivity|].
    rewrite Hq; reflexivity. }
  split; [exact A|]. split; [|rewrite A; reflexivity].
  rewrite A. unfold worker_fetch; simpl.
  destruct (String.eqb_spec (method req) "OPTIONS"); [contradiction|].
  rewrite (route_falsy_param _ name); simpl; try reflexivity.
  exact Hp.
Qed.

Lemma worker_empty_param_is_missing_witness :
  let req := {| method := "GET"; pathname := "/stream"; searchParams := [("url", "")] |} in
  worker_fetch req silent_env initial_world = (missing_response "url", initial_world).
Proof.
  destruct (worker_empty_param_is_missing
              {| method := "GET"; pathname := "/stream"; searchParams := [("url", "")] |}
              silent_env initial_world "url"
              (or_intror (conj (or_intror eq_refl) eq_refl)) eq_refl) as (other & _).
  destruct (other ltac:(discriminate)) as (missing_url & _).
  exact missing_url.
Defined.

(** C10, as stated, fails on a preflight request: an OPTIONS request to
    [/resolve] with an empty [url] is answered 200 with an empty body, not
    400. *)
Lemma options_resolve_empty_url_is_200 :
  let req := {| method := "OPTIONS"; pathname := "/resolve"; searchParams := [("url", "")] |} in
  searchParams_get "url" (searchParams req) = Some "" /\
  fst (worker_fetch req silent_env initial_world)
    = {| status := 200; headers := corsHeaders; body := None |} /\
  status (fst (worker_fetch req silent_env initial_world)) <> 400.
Proof.
  repeat split; simpl; discriminate.
Qed.

(** ** [resolveUrl] *)

Lemma resolveUrl_after_credential (url : string) (e : env) (w w1 : world) (c : string) :
  getClientId e w = (Ok c, w1) ->
  resolveUrl url e w =
    match upstream e (requests w1) (resolve_request url c) with
    | Some r =>
        if res_ok r
        then match res_json r with
             | Some v => (Ok v, log (resolve_request url c) w1)
             | None => (Throw JsonSyntaxError, log (resolve_request url c) w1)
             end
        else (Throw (Error ("SoundCloud resolve error: " ++ string_of_Z (res_status r))),
              log (resolve_request url c) w1)
    | None => (Throw FetchRejected, log (resolve_request url c) w1)
    end.
Proof.
  intros G. unfold resolveUrl, bind. rewrite G.
  unfold fetch, resolve_request.
  destruct (upstream e (requests w1) _) as [r|]; [|reflexivity].
  destruct (res_ok r); simpl; [|reflexivity].
  unfold json. destruct (res_json r); reflexivity.
Qed.

Lemma resolveUrl_without_credential (url : string) (e : env) (w w1 : world) (x : exn) :
  getClientId e w = (Throw x, w1) ->
  resolveUrl url e w = (Throw x, w1).
Proof.
  intros G. unfold resolveUrl, bind. rewrite G. reflexivity.
Qed.

(** C2 (as amended).  When the API answers the resolve request with 401, the
    resolver fails at once with the generic error of every non-2xx status:
    the module variables stay as [getClientId] left them (the credential is
    not invalidated) and the log grows by that one request (nothing is
    retried). *)
Theorem resolveUrl_401_fails_at_once
    (url : string) (e : env) (w w1 : world) (c : string) (r : response) :
  getClientId e w = (Ok c, w1) ->
  upstream e (requests w1) (resolve_request url c) = Some r ->
  res_status r = 401 ->
  let (out, w2) := resolveUrl url e w in
  out = Throw (Error "SoundCloud resolve error: 401") /\
  cachedClientId w2 = cachedClientId w1 /\
  clientIdExpiry w2 = clientIdExpiry w1 /\
  requests w2 = resolve_request url c :: requests w1.
Proof.
  intros G U S.
  rewrite (resolveUrl_after_credential url e w w1 c G), U.
  unfold res_ok. rewrite S. simpl. repeat split; reflexivity.
Qed.

Lemma resolveUrl_401_fails_at_once_witness :
  let (out, w2) := resolveUrl "https://soundcloud.com/a/night-drive" unauthorized_once initial_world in
  out = Throw (Error "SoundCloud resolve error: 401") /\
  cachedClientId w2 = Some demo_token /\
  clientIdExpiry w2 = ttl /\
  List.length (filter is_api (requests w2)) = 1%nat.
Proof.
  pose proof (resolveUrl_401_fails_at_once
                "https://soundcloud.com/a/night-drive" unauthorized_once initial_world
                (store demo_token (0 + ttl)
                   (log (Url demo_script_url) (log homepage initial_world)))
                demo_token
                (api_response 401 (VObj [("error", VStr "unauthorized")]))
                eq_refl eq_refl eq_refl) as H.
  destruct (resolveUrl _ _ _) as [out w2].
  destruct H as (H1 & H2 & H3 & H4).
  rewrite H1, H2, H3, H4. repeat split.
Defined.

(** C2, as stated, fails: against an upstream that answers 401 once and 200
    to any later request, the resolver does not retry and does not succeed.
    It throws, leaves the credential in the cache, and has sent one API
    request; the same request sent again would have been answered 200. *)
Lemma resolve_401_then_200_is_not_retried :
  let url := "https://soundcloud.com/a/night-drive" in
  let (out, w2) := resolveUrl url unauthorized_once initial_world in
  out = Throw (Error "SoundCloud resolve error: 401") /\
  cachedClientId w2 = Some demo_token /\
  List.length (filter is_api (requests w2)) = 1%nat /\
  upstream unauthorized_once (requests w2) (resolve_request url demo_token)
    = Some (api_response 200 demo_track).
Proof.
  vm_compute. repeat split.
Qed.

(** ** Upstream failures at the boundary *)

Lemma worker_resolve (req : request) (e : env) (w : world) (u : string) :
  method req <> "OPTIONS" ->
  pathname req = "/resolve" ->
  present (searchParams_get "url" (searchParams req)) = Some u ->
  worker_fetch req e w =
    match resolveUrl u e w with
    | (Ok track, w') => (respond 200 (VObj [("track", track)]), w')
    | (Throw x, w') => (error_response 500 (exn_message x), w')
    end.
Proof.
  intros Hm P Q. unfold worker_fetch.
  destruct (String.eqb_spec (method req) "OPTIONS"); [contradiction|].
  unfold route. rewrite P; simpl. rewrite Q.
  unfold bind, ret. destruct (resolveUrl u e w) as [[track|x] w']; reflexivity.
Qed.

(** C6 (as amended).  For a [/resolve] request (method other than OPTIONS,
    [url] present) whose credential is available: when the API answers with a
    status outside 200..299, 404 included, the handler answers 500 with the
    message [SoundCloud resolve error: <status>]; when it answers 2xx with a
    JSON body, whatever it is (an empty one too), the handler answers 200
    with that body under [track]. *)
Theorem worker_resolve_upstream_status
    (req : request) (e : env) (w w1 : world) (u c : string) (r : response) :
  method req <> "OPTIONS" ->
  pathname req = "/resolve" ->
  present (searchParams_get "url" (searchParams req)) = Some u ->
  getClientId e w = (Ok c, w1) ->
  upstream e (requests w1) (resolve_request u c) = Some r ->
  (res_ok r = false ->
   worker_fetch req e w =
     (error_response 500 ("SoundCloud resolve error: " ++ string_of_Z (res_status r)),
      log (resolve_request u c) w1)) /\
  (forall data, res_ok r = true -> res_json r = Some data ->
   worker_fetch req e w =
     (respond 200 (VObj [("track", data)]), log (resolve_request u c) w1)).
Proof.
  intros Hm P Q G U.
  rewrite (worker_resolve req e w u Hm P Q).
  rewrite (resolveUrl_after_credential u e w w1 c G), U.
  split.
  - intros ->. reflexivity.
  - intros data -> ->. reflexivity.
Qed.

Lemma worker_resolve_upstream_status_witness :
  worker_fetch {| method := "GET"; pathname := "/resolve"; searchParams := [("url", "x")] |}
    always_404 initial_world
  = (error_response 500 "SoundCloud resolve error: 404",
     log (resolve_request "x" demo_token)
       (store demo_token (0 + ttl) (log (Url demo_script_url) (log homepage initial_world)))).
Proof.
  apply (worker_resolve_upstream_status
           {| method := "GET"; pathname := "/resolve"; searchParams := [("url", "x")] |}
           always_404 initial_world _ "x" demo_token (api_response 404 (VObj [])));
    [discriminate | reflexivity | reflexivity | reflexivity | reflexivity | reflexivity].
Defined.

(** C6, as stated, fails: a [/resolve] request whose upstream answer is 404
    is answered 500 by the handler, not 404. *)
Lemma upstream_404_is_answered_500 :
  let req := {| method := "GET"; pathname := "/resolve";
                searchParams := [("url", "https://soundcloud.com/a/gone")] |} in
  fst (resolveUrl "https://soundcloud.com/a/gone" always_404 initial_world)
    = Throw (Error "SoundCloud resolve error: 404") /\
  fst (worker_fetch req always_404 initial_world)
    = error_response 500 "SoundCloud resolve error: 404" /\
  status (fst (worker_fetch req always_404 initial_world)) <> 404.
Proof.
  vm_compute. repeat split; discriminate.
Qed.

(** ** The choice of a transcoding *)

Lemma get_not_null (t : value) (k : string) :
  not_null t -> get t k = Ok (get_opt t k).
Proof. destruct t; simpl; intros H; try discriminate; reflexivity. Qed.

Lemma is_progressive_not_null (t : value) :
  not_null t -> is_progressive t = Ok (progressive t).
Proof.
  intros H. unfold is_progressive, progressive. rewrite (get_not_null t _ H). reflexivity.
Qed.

Lemma progressive_truthy (t : value) : progressive t = true -> truthy t = true.
Proof. destruct t; simpl; try discriminate; reflexivity. Qed.

Lemma find_result_progressive (items : list value) :
  Forall not_null items ->
  find_result is_progressive items =
    Ok (match find progressive items with Some t => t | None => VUndef end).
Proof.
  induction 1 as [|t rest Ht _ IH]; [reflexivity|].
  simpl. rewrite (is_progressive_not_null t Ht). simpl.
  destruct (progressive t); [reflexivity|exact IH].
Qed.

Lemma pick_transcoding_designated (items : list value) :
  Forall not_null items ->
  pick_transcoding (VArr items) =
    match designated items with
    | Some t => if usable t then Ok t else no_variant_url
    | None => no_variant_url
    end.
Proof.
  intros H. unfold pick_transcoding, designated.
  rewrite (find_result_progressive items H). simpl.
  destruct (find progressive items) as [t|] eqn:F.
  - apply find_some in F. destruct F as [_ P].
    rewrite (progressive_truthy t P). simpl.
    unfold usable. destruct (truthy (get_opt t "url")); reflexivity.
  - simpl. destruct items as [|t rest]; simpl; [reflexivity|].
    unfold usable. destruct (truthy (get_opt t "url")); reflexivity.
Qed.

Lemma designated_none (items : list value) : designated items = None <-> items = [].
Proof.
  unfold designated. split.
  - destruct (find progressive items); [discriminate|].
    destruct items; [reflexivity|discriminate].
  - intros ->. reflexivity.
Qed.

(** C3 (as amended).  For every list of variants none of which is [null]:
    the variant designated is the first progressive one when there is one and
    the first of the list otherwise; the selection returns it when its [url]
    is usable, and fails with [No transcoding URL found] exactly when the
    list is empty or the designated variant has no usable [url]; it never
    fails by reading a property of [null] or [undefined]. *)
Theorem pick_transcoding_policy (items : list value) :
  Forall not_null items ->
  (forall t, find progressive items = Some t -> designated items = Some t) /\
  (find progressive items = None -> designated items = hd_error items) /\
  (forall t, designated items = Some t -> usable t = true ->
             pick_transcoding (VArr items) = Ok t) /\
  (pick_transcoding (VArr items) = no_variant_url <->
   items = [] \/ exists t, designated items = Some t /\ usable t = false) /\
  (forall p, pick_transcoding (VArr items) <> Throw (NullishRead p)).
Proof.
  intros H. rewrite (pick_transcoding_designated items H).
  split; [|split; [|split; [|split]]].
  - intros t F. unfold designated. rewrite F. reflexivity.
  - intros F. unfold designated. rewrite F. reflexivity.
  - intros t D U. rewrite D, U. reflexivity.
  - destruct (designated items) as [t|] eqn:D.
    + destruct (usable t) eqn:U; split.
      * discriminate.
      * intros [E|(t' & E & U')].
        -- apply designated_none in E. congruence.
        -- congruence.
      * intros _. right. exists t. auto.
      * reflexivity.
    + split; [|reflexivity]. intros _. left. now apply designated_none.
  - intros p. destruct (designated items) as [t|]; [destruct (usable t)|]; discriminate.
Qed.

Lemma pick_transcoding_policy_witness :
  pick_transcoding (VArr [hls_variant; progressive_variant]) = Ok progressive_variant.
Proof.
  apply (pick_transcoding_policy [hls_variant; progressive_variant]).
  - repeat constructor.
  - reflexivity.
  - reflexivity.
Defined.

(** C3, as stated, fails: the list is not empty and one of its candidates
    exposes a usable URL, yet the selection fails, because the first
    progressive variant is the one looked at and it has no [url]. *)
Lemma progressive_without_url_hides_usable_variant :
  let items := [progressive_without_url; hls_variant] in
  items <> [] /\
  (exists t, In t items /\ usable t = true) /\
  pick_transcoding (VArr items) = no_variant_url /\
  track_transcoding (VObj [("media", VObj [("transcodings", VArr items)])]) = no_variant_url.
Proof.
  repeat split; try discriminate.
  exists hls_variant. split; [right; left|]; reflexivity.
Qed.

(** ** The search result *)

Lemma simplify_track_not_null (t : value) :
  not_null t ->
  simplify_track t =
    Ok (VObj [("id", get_opt t "id"); ("title", get_opt t "title");
              ("permalink_url", get_opt t "permalink_url");
              ("duration", get_opt t "duration");
              ("artwork_url", get_opt t "artwork_url");
              ("user", VObj [("username", get_opt (get_opt t "user") "username");
                             ("full_name", get_opt (get_opt t "user") "full_name")]);
              ("media", get_opt t "media")]).
Proof.
  intros H. unfold simplify_track, user_of.
  rewrite !(get_not_null t _ H). reflexivity.
Qed.

Lemma simplify_track_normalizes (t o : value) :
  not_null t -> simplify_track t = Ok o -> normalizes t o.
Proof.
  intros H. rewrite (simplify_track_not_null t H). intros E; inversion E; subst o; clear E.
  unfold normalizes; simpl. repeat split.
  intros U. unfold written_keys. simpl. rewrite U.
  destruct (get_opt (get_opt t "user") "full_name"); simpl; intuition discriminate.
Qed.

Lemma map_result_simplify (items : list value) :
  Forall not_null items ->
  exists out, map_result simplify_track items = Ok out /\ Forall2 normalizes items out.
Proof.
  induction 1 as [|t rest Ht _ (out & E & F)].
  - exists []. split; [reflexivity|constructor].
  - pose proof (simplify_track_normalizes t _ Ht (simplify_track_not_null t Ht)) as N.
    eexists. simpl. rewrite (simplify_track_not_null t Ht). simpl. rewrite E. simpl.
    split; [reflexivity|]. constructor; assumption.
Qed.

(** A response without a [collection] (or with a falsy one) holds no track
    and gives the empty array. *)
Lemma simplify_tracks_no_collection (data : value) :
  not_null data -> truthy (get_opt data "collection") = false ->
  simplify_tracks data = Ok (VArr []).
Proof.
  intros N F. unfold simplify_tracks. rewrite (get_not_null data _ N). simpl.
  rewrite F. reflexivity.
Qed.

Lemma searchTracks_after_credential
    (query : string) (limit : option Z) (e : env) (w w1 : world) (c : string) :
  getClientId e w = (Ok c, w1) ->
  searchTracks query limit e w =
    match upstream e (requests w1) (search_request query c limit) with
    | Some r =>
        if res_ok r
        then match res_json r with
             | Some data => (simplify_tracks data, log (search_request query c limit) w1)
             | None => (Throw JsonSyntaxError, log (search_request query c limit) w1)
             end
        else (Throw (Error ("SoundCloud API error: " ++ string_of_Z (res_status r))),
              log (search_request query c limit) w1)
    | None => (Throw FetchRejected, log (search_request query c limit) w1)
    end.
Proof.
  intros G. unfold searchTracks, bind. rewrite G.
  unfold fetch, search_request.
  destruct (upstream e (requests w1) _) as [r|]; [|reflexivity].
  destruct (res_ok r); simpl; [|reflexivity].
  unfold json. destruct (res_json r); reflexivity.
Qed.

(** C9.  When the API answers the search with a 2xx response whose
    [collection] is an array of tracks (none of them [null]), [searchTracks]
    returns an array with one entry per track, in the same order, each with
    the [id], [title], [permalink_url] and [user.username] of its track; a
    track without [user.username] gives an entry whose [user] is written
    without a [username], and no error.  In particular four tracks give four
    entries. *)
Theorem searchTracks_one_entry_per_track
    (query : string) (limit : option Z) (e : env) (w w1 : world) (c : string)
    (r : response) (data : value) (items : list value) :
  getClientId e w = (Ok c, w1) ->
  upstream e (requests w1) (search_request query c limit) = Some r ->
  res_ok r = true ->
  res_json r = Some data ->
  get data "collection" = Ok (VArr items) ->
  Forall not_null items ->
  exists out,
    fst (searchTracks query limit e w) = Ok (VArr out) /\
    List.length out = List.length items /\
    Forall2 normalizes items out /\
    (List.length items = 4%nat -> List.length out = 4%nat).
Proof.
  intros G U K J C N.
  rewrite (searchTracks_after_credential query limit e w w1 c G), U, K, J. simpl.
  destruct (map_result_simplify items N) as (out & E & F).
  exists out. unfold simplify_tracks. rewrite C. simpl. rewrite E. simpl.
  pose proof (Forall2_length F) as L.
  repeat split; auto; congruence.
Qed.

Lemma searchTracks_one_entry_per_track_witness :
  exists out,
    fst (searchTracks "lofi" (Some 4) lofi_env initial_world) = Ok (VArr out) /\
    List.length out = 4%nat.
Proof.
  destruct (searchTracks_one_entry_per_track "lofi" (Some 4) lofi_env initial_world
              (store demo_token (0 + ttl)
                 (log (Url demo_script_url) (log homepage initial_world)))
              demo_token (api_response 200 four_tracks) four_tracks
              (match four_tracks with VObj [(_, VArr l)] => l | _ => [] end)
              eq_refl eq_refl eq_refl eq_refl eq_refl
              ltac:(repeat constructor))
    as (out & E & L & _ & _).
  exists out. split; [exact E|exact L].
Defined.

(** ** The format choice of [/youtube/video] *)






(** ** The token pattern *)

Lemma strip_prefix_app (p s r : string) : strip_prefix p s = Some r <-> s = p ++ r.
Proof.
  revert s. induction p as [|a p IH]; intros s; simpl.
  - split; [intros E; inversion E; reflexivity|intros ->; reflexivity].
  - destruct s as [|b s].
    + split; discriminate.
    + destruct (Ascii.eqb_spec a b) as [->|N].
      * rewrite IH. split; [intros ->; reflexivity|intros E; inversion E; reflexivity].
      * split; [discriminate|intros E; inversion E; congruence].
Qed.

Lemma skip_space_split (s : string) :
  exists ws, s = ws ++ skip_space s /\ all_chars is_space ws = true.
Proof.
  induction s as [|c s (ws & E & A)]; simpl.
  - exists "". split; reflexivity.
  - destruct (is_space c) eqn:S.
    + exists (String c ws). simpl. rewrite S, A. split; [f_equal; exact E|reflexivity].
    + exists "". split; reflexivity.
Qed.

Lemma skip_space_app (ws : string) (c : ascii) (r : string) :
  all_chars is_space ws = true -> is_space c = false ->
  skip_space (ws ++ String c r) = String c r.
Proof.
  intros A N. induction ws as [|a ws IH]; simpl in *.
  - rewrite N. reflexivity.
  - apply andb_true_iff in A. destruct A as [Sa A]. rewrite Sa. auto.
Qed.

Lemma sep_not_space (c : ascii) : is_sep c = true -> is_space c = false.
Proof.
  unfold is_sep. intros H. apply orb_true_iff in H.
  destruct H as [H|H]; apply Ascii.eqb_eq in H; subst c; reflexivity.
Qed.

Lemma quote_not_space (c : ascii) : is_quote c = true -> is_space c = false.
Proof.
  unfold is_quote. intros H. apply orb_true_iff in H.
  destruct H as [H|H]; apply Ascii.eqb_eq in H; subst c; reflexivity.
Qed.

Lemma take_alnum_split (n : nat) (s t rest : string) :
  take_alnum n s = Some (t, rest) ->
  s = t ++ rest /\ String.length t = n /\ all_chars is_alnum t = true.
Proof.
  revert s t rest. induction n as [|n IH]; intros s t rest; simpl.
  - intros E; inversion E; subst. repeat split.
  - destruct s as [|c s]; [discriminate|].
    destruct (is_alnum c) eqn:A; [|discriminate].
    destruct (take_alnum n s) as [[t' rest']|] eqn:T; [|discriminate].
    intros E; inversion E; subst. destruct (IH _ _ _ T) as (-> & L & B).
    simpl. rewrite A, B, L. repeat split.
Qed.

Lemma take_alnum_app (t rest : string) :
  all_chars is_alnum t = true ->
  take_alnum (String.length t) (t ++ rest) = Some (t, rest).
Proof.
  induction t as [|c t IH]; simpl; [reflexivity|].
  intros A. apply andb_true_iff in A. destruct A as [Ac A].
  rewrite Ac, (IH A). reflexivity.
Qed.

Lemma client_id_here_token (s c : string) : client_id_here s = Some c <-> token_at s c.
Proof.
  unfold client_id_here, token_at. split.
  - destruct (strip_prefix "client_id" s) as [s1|] eqn:P; [|discriminate].
    apply strip_prefix_app in P.
    destruct (skip_space_split s1) as (ws1 & E1 & A1).
    destruct (skip_space s1) as [|sep s2]; [discriminate|].
    destruct (is_sep sep) eqn:Sp; [|discriminate].
    destruct (skip_space_split s2) as (ws2 & E2 & A2).
    destruct (skip_space s2) as [|q1 s3]; [discriminate|].
    destruct (is_quote q1) eqn:Q1; [|discriminate].
    destruct (take_alnum 32 s3) as [[tok after]|] eqn:T; [|discriminate].
    destruct after as [|q2 rest]; [discriminate|].
    destruct (is_quote q2) eqn:Q2; [|discriminate].
    intros E; inversion E; subst tok; clear E.
    destruct (take_alnum_split _ _ _ _ T) as (E3 & L & A).
    exists ws1, sep, ws2, q1, q2, rest.
    repeat split; auto. rewrite P, E1, E2, E3. reflexivity.
  - intros (ws1 & sep & ws2 & q1 & q2 & rest & -> & A1 & Sp & A2 & Q1 & L & A & Q2).
    replace (strip_prefix "client_id" _) with
      (Some (ws1 ++ String sep (ws2 ++ String q1 (c ++ String q2 rest))))
      by (symmetry; apply strip_prefix_app; reflexivity).
    rewrite (skip_space_app ws1 sep _ A1 (sep_not_space sep Sp)), Sp.
    rewrite (skip_space_app ws2 q1 _ A2 (quote_not_space q1 Q1)), Q1.
    rewrite <- L, (take_alnum_app c _ A), Q2. reflexivity.
Qed.

Lemma client_id_match_first (s c : string) : client_id_match s = Some c <-> first_token s c.
Proof.
  unfold first_token. induction s as [|a s IH].
  - simpl. split; [discriminate|].
    intros (pre & rest & E & T & _).
    destruct pre; [|discriminate]. simpl in E. subst rest.
    apply client_id_here_token in T. discriminate.
  - change (client_id_match (String a s)) with
      (match client_id_here (String a s) with
       | Some tok => Some tok
       | None => client_id_match s
       end).
    destruct (client_id_here (String a s)) as [tok|] eqn:H.
    + split.
      * intros E; inversion E; subst tok.
        exists "", (String a s). split; [reflexivity|].
        split; [now apply client_id_here_token|].
        intros pre' rest' c' _ L. simpl in L. lia.
      * intros (pre & rest & E & T & Least).
        destruct pre as [|b pre].
        -- simpl in E. subst rest. apply client_id_here_token in T. congruence.
        -- exfalso. apply (Least "" (String a s) tok); [reflexivity|simpl; lia|].
           now apply client_id_here_token.
    + rewrite IH. split.
      * intros (pre & rest & -> & T & Least).
        exists (String a pre), rest. split; [reflexivity|]. split; [exact T|].
        intros pre' rest' c' E L T'.
        destruct pre' as [|b pre'].
        -- simpl in E. subst rest'. apply client_id_here_token in T'. congruence.
        -- simpl in E. inversion E; subst. apply (Least pre' rest' c'); auto.
           simpl in L. lia.
      * intros (pre & rest & E & T & Least).
        destruct pre as [|b pre].
        -- simpl in E. subst rest. apply client_id_here_token in T. congruence.
        -- simpl in E. inversion E; subst.
           exists pre, rest. split; [reflexivity|]. split; [exact T|].
           intros pre' rest' c' E' L T'.
           apply (Least (String b pre') rest' c');
             [simpl; rewrite E'; reflexivity|simpl; lia|exact T'].
Qed.

Lemma client_id_match_shape (s c : string) :
  client_id_match s = Some c ->
  String.length c = 32%nat /\ all_chars is_alnum c = true.
Proof.
  intros H. apply client_id_match_first in H.
  destruct H as (_ & _ & _ & (_ & _ & _ & _ & _ & _ & _ & _ & _ & _ & _ & L & A & _) & _).
  split; assumption.
Qed.

(** ** The scrape *)

Lemma script_token_world (u : string) (e : env) (w : world) :
  snd (script_token u e w) = log (Url u) w.
Proof.
  unfold script_token, bind, fetch, text, ret, throw.
  destruct (upstream e (requests w) (Url u)) as [r|]; [|reflexivity].
  destruct (res_text r); reflexivity.
Qed.

Lemma script_token_yields (u : string) (e : env) (w : world) :
  static e -> on_cdn u = true ->
  yields e u = match fst (script_token u e w) with
               | Ok found => found
               | Throw _ => None
               end.
Proof.
  intros S C. unfold yields, script_token, bind, fetch, text, ret, throw.
  rewrite C, (S [] (requests w)).
  destruct (upstream e (requests w) (Url u)) as [r|]; [|reflexivity].
  destruct (res_text r); reflexivity.
Qed.

Lemma on_cdn_not_homepage (u : string) : on_cdn u = true -> is_homepage (Url u) = false.
Proof.
  intros C. simpl. destruct (String.eqb_spec u "https://soundcloud.com/") as [->|]; [|reflexivity].
  vm_compute in C. discriminate.
Qed.

(** The loop returns only through the assignment of the cache, and the
    credential it returns has the shape of the pattern. *)
Lemma try_scripts_ok (now : Z) (e : env) (urls : list string) (w w1 : world) (c : string) :
  try_scripts now urls e w = (Ok c, w1) ->
  cachedClientId w1 = Some c /\ clientIdExpiry w1 = now + ttl /\
  String.length c = 32%nat /\ all_chars is_alnum c = true.
Proof.
  revert w. induction urls as [|u urls IH]; intros w; simpl.
  - discriminate.
  - destruct (includes "sndcdn.com" u); [|apply IH].
    destruct (script_token u e w) as [[[c'|]|x] w'] eqn:T; try apply IH.
    intros E; inversion E; subst. simpl. repeat split.
    + unfold script_token, bind, fetch, text, ret, throw in T.
      destruct (upstream e (requests w) (Url u)) as [r|]; [|discriminate].
      destruct (res_text r) as [content|]; [|discriminate].
      inversion T. now apply client_id_match_shape with (s := content).
    + unfold script_token, bind, fetch, text, ret, throw in T.
      destruct (upstream e (requests w) (Url u)) as [r|]; [|discriminate].
      destruct (res_text r) as [content|]; [|discriminate].
      inversion T. now apply client_id_match_shape with (s := content).
Qed.

(** The loop throws nothing but its own error, and then leaves the cache
    variables alone. *)
Lemma try_scripts_throw (now : Z) (e : env) (urls : list string) (w w1 : world) (x : exn) :
  try_scripts now urls e w = (Throw x, w1) ->
  x = no_client_id /\ cachedClientId w1 = cachedClientId w /\
  clientIdExpiry w1 = clientIdExpiry w.
Proof.
  revert w. induction urls as [|u urls IH]; intros w; simpl.
  - unfold throw. intros E; inversion E; subst. repeat split.
  - destruct (includes "sndcdn.com" u); [|apply IH].
    pose proof (script_token_world u e w) as W.
    destruct (script_token u e w) as [[[c'|]|y] w'] eqn:T; simpl in W; subst w';
      try discriminate; intros E; apply IH in E; exact E.
Qed.

(** What the loop requests: the candidates on the CDN, one request each, in
    the order of the page, up to the one that matched. *)
Lemma try_scripts_log (now : Z) (e : env) (urls : list string) (w : world) :
  exists fetched rest,
    filter on_cdn urls = (fetched ++ rest)%list /\
    requests (snd (try_scripts now urls e w)) = (rev (map Url fetched) ++ requests w)%list.
Proof.
  revert w. induction urls as [|u urls IH]; intros w; simpl.
  - exists [], []. split; reflexivity.
  - unfold on_cdn at 1. destruct (includes "sndcdn.com" u); [|apply IH].
    pose proof (script_token_world u e w) as W.
    destruct (script_token u e w) as [[[c'|]|y] w'] eqn:T; simpl in W; subst w'.
    + exists [u], (filter on_cdn urls). split; reflexivity.
    + destruct (IH (log (Url u) w)) as (fetched & rest & F & R).
      exists (u :: fetched), rest. split; [simpl; rewrite F; reflexivity|].
      rewrite R. simpl. rewrite <- app_assoc. reflexivity.
    + destruct (IH (log (Url u) w)) as (fetched & rest & F & R).
      exists (u :: fetched), rest. split; [simpl; rewrite F; reflexivity|].
      rewrite R. simpl. rewrite <- app_assoc. reflexivity.
Qed.

Lemma try_scripts_none (now : Z) (e : env) (urls : list string) (w : world) :
  static e ->
  (forall u, In u urls -> yields e u = None) ->
  fst (try_scripts now urls e w) = Throw no_client_id.
Proof.
  intros S. revert w. induction urls as [|u urls IH]; intros w N; simpl; [reflexivity|].
  assert (N' : forall v, In v urls -> yields e v = None) by (intros v I; apply N; now right).
  destruct (includes "sndcdn.com" u) eqn:C; [|now apply IH].
  pose proof (script_token_yields u e w S C) as Y.
  rewrite (N u (or_introl eq_refl)) in Y.
  destruct (script_token u e w) as [[[c'|]|y] w']; simpl in Y; try discriminate; now apply IH.
Qed.

Lemma try_scripts_first (now : Z) (e : env) (before after : list string) (u c : string)
    (w : world) :
  static e ->
  (forall v, In v before -> yields e v = None) ->
  yields e u = Some c ->
  fst (try_scripts now (before ++ u :: after) e w) = Ok c.
Proof.
  intros S N Y. revert w. induction before as [|v before IH]; intros w; simpl.
  - assert (C : on_cdn u = true).
    { unfold yields in Y. destruct (on_cdn u); [reflexivity|discriminate]. }
    unfold on_cdn in C. rewrite C.
    pose proof (script_token_yields u e w S C) as T. rewrite Y in T.
    destruct (script_token u e w) as [[[c'|]|y] w']; simpl in T; try discriminate.
    inversion T; reflexivity.
  - assert (N' : forall x, In x before -> yields e x = None) by (intros x I; apply N; now right).
    destruct (includes "sndcdn.com" v) eqn:C; [|now apply IH].
    pose proof (script_token_yields v e w S C) as T.
    rewrite (N v (or_introl eq_refl)) in T.
    destruct (script_token v e w) as [[[c'|]|y] w']; simpl in T; try discriminate; now apply IH.
Qed.

(** Either no URL of the list yields a token, or there is a first one that
    does. *)
Lemma first_yield (e : env) (urls : list string) :
  (forall u, In u urls -> yields e u = None) \/
  exists before u after c,
    urls = (before ++ u :: after)%list /\
    (forall v, In v before -> yields e v = None) /\ yields e u = Some c.
Proof.
  induction urls as [|u urls [N|(before & v & after & c & -> & N & Y)]].
  - left. intros u [].
  - destruct (yields e u) as [c|] eqn:Y.
    + right. exists [], u, urls, c. repeat split; auto. intros v [].
    + left. intros v [<-|I]; auto.
  - destruct (yields e u) as [c'|] eqn:Y'.
    + right. exists [], u, (before ++ v :: after)%list, c'. repeat split; auto. intros x [].
    + right. exists (u :: before), v, after, c. repeat split; auto.
      intros x [<-|I]; auto.
Qed.

Lemma scrape_with_page (now : Z) (e : env) (w : world) (r : response) (html : string) :
  upstream e (requests w) homepage = Some r ->
  res_text r = Some html ->
  scrape now e w = try_scripts now (script_srcs html) e (log homepage w).
Proof.
  intros U T. unfold scrape, bind, fetch, text. rewrite U, T. reflexivity.
Qed.

(** When the landing page itself cannot be fetched or read, the scrape ends
    with that rejection, after the one request. *)
Lemma scrape_without_page (now : Z) (e : env) (w : world) :
  (upstream e (requests w) homepage = None \/
   exists r, upstream e (requests w) homepage = Some r /\ res_text r = None) ->
  scrape now e w = (Throw FetchRejected, log homepage w).
Proof.
  unfold scrape, bind, fetch, text. intros [->|(r & -> & ->)]; reflexivity.
Qed.

(** With the landing page delivered and a static upstream, the candidates
    being read with [script_srcs] and [yields]: the scrape
    fails, with [Could not extract client_id], exactly when no script URL of
    the page yields a token (a script that is not on the CDN, cannot be
    fetched or read, or holds no match, yields none and the loop goes on to
    the next); otherwise it returns the token of the first URL that yields
    one, which is the 32 alphanumeric characters of the leftmost place of that
    script where the pattern holds; and the requests it sends are the landing
    page followed by candidates on the CDN in page order, each requested
    once. *)
Theorem scrape_first_token (now : Z) (e : env) (w : world) (r : response) (html : string) :
  static e ->
  upstream e (requests w) homepage = Some r ->
  res_text r = Some html ->
  (fst (scrape now e w) = Throw no_client_id <->
   forall u, In u (script_srcs html) -> yields e u = None) /\
  (forall c, fst (scrape now e w) = Ok c <->
     exists before u after,
       script_srcs html = (before ++ u :: after)%list /\
       (forall v, In v before -> yields e v = None) /\ yields e u = Some c) /\
  (forall u c, yields e u = Some c ->
     on_cdn u = true /\
     exists answer content,
       upstream e [] (Url u) = Some answer /\ res_text answer = Some content /\
       first_token content c /\
       String.length c = 32%nat /\ all_chars is_alnum c = true) /\
  (exists fetched rest,
     filter on_cdn (script_srcs html) = (fetched ++ rest)%list /\
     requests (snd (scrape now e w)) = (rev (map Url fetched) ++ homepage :: requests w)%list).
Proof.
  intros S U T. rewrite (scrape_with_page now e w r html U T).
  split; [|split; [|split]].
  - split.
    + intros F. destruct (first_yield e (script_srcs html))
        as [N|(before & u & after & c & E & N & Y)]; [exact N|].
      rewrite E, (try_scripts_first now e before after u c _ S N Y) in F. discriminate.
    + intros N. now apply try_scripts_none.
  - intros c. split.
    + intros F. destruct (first_yield e (script_srcs html))
        as [N|(before & u & after & c' & E & N & Y)].
      * rewrite (try_scripts_none now e _ _ S N) in F. discriminate.
      * exists before, u, after. repeat split; auto.
        rewrite E, (try_scripts_first now e before after u c' _ S N Y) in F. congruence.
    + intros (before & u & after & E & N & Y). rewrite E. now apply try_scripts_first.
  - intros u c Y. unfold yields in Y.
    destruct (on_cdn u); [|discriminate]. split; [reflexivity|].
    destruct (upstream e [] (Url u)) as [answer|]; [|discriminate].
    destruct (res_text answer) as [content|] eqn:A; [|discriminate].
    exists answer, content.
    split; [reflexivity|]. split; [exact A|].
    split; [now apply client_id_match_first|].
    now apply client_id_match_shape with (s := content).
  - apply (try_scripts_log now e (script_srcs html) (log homepage w)).
Qed.

Lemma scrape_env_static : static scrape_env.
Proof. intros earlier earlier' [u|base params]; reflexivity. Qed.

Lemma broken_cdn_env_static : static broken_cdn_env.
Proof. intros earlier earlier' [u|base params]; reflexivity. Qed.

Lemma scrape_first_token_witness :
  fst (scrape 0 scrape_env initial_world) = Ok demo_token /\
  fst (scrape 0 broken_cdn_env initial_world) = Throw no_client_id.
Proof.
  split.
  - destruct (scrape_first_token 0 scrape_env initial_world (page_response demo_page) demo_page
                scrape_env_static eq_refl eq_refl) as (_ & found & _).
    apply found. exists [], demo_script_url, []. repeat split.
    intros v [].
  - destruct (scrape_first_token 0 broken_cdn_env initial_world (page_response demo_page)
                demo_page broken_cdn_env_static eq_refl eq_refl) as (none & _).
    apply none. intros u [<-|[]]. reflexivity.
Defined.

(** ** The cache *)

Lemma scrape_ok (now : Z) (e : env) (w w1 : world) (c : string) :
  scrape now e w = (Ok c, w1) ->
  cachedClientId w1 = Some c /\ clientIdExpiry w1 = now + ttl /\
  String.length c = 32%nat.
Proof.
  unfold scrape, bind, fetch, text.
  destruct (upstream e (requests w) homepage) as [r|]; [|discriminate].
  destruct (res_text r) as [html|]; [|discriminate].
  unfold ret. intros E. apply try_scripts_ok in E. tauto.
Qed.

Lemma cdn_requests_not_homepage (fetched : list string) :
  Forall (fun u => on_cdn u = true) fetched ->
  filter is_homepage (rev (map Url fetched)) = [].
Proof.
  induction 1 as [|u fetched Hu _ IH]; [reflexivity|].
  simpl rev. rewrite filter_app, IH.
  apply on_cdn_not_homepage in Hu. simpl in *. rewrite Hu. reflexivity.
Qed.

Lemma scrape_counts_once (now : Z) (e : env) (w : world) :
  scrapes (snd (scrape now e w)) = S (scrapes w).
Proof.
  unfold scrape, bind, fetch, text.
  destruct (upstream e (requests w) homepage) as [r|]; [|reflexivity].
  destruct (res_text r) as [html|]; [|reflexivity].
  unfold ret.
  destruct (try_scripts_log now e (script_srcs html) (log homepage w))
    as (fetched & rest & F & R).
  unfold scrapes. rewrite R.
  assert (C : Forall (fun u => on_cdn u = true) fetched).
  { apply Forall_forall. intros u I.
    assert (I' : In u (filter on_cdn (script_srcs html))) by (rewrite F; apply in_or_app; now left).
    apply filter_In in I'. tauto. }
  rewrite filter_app, length_app.
  rewrite (cdn_requests_not_homepage fetched C). reflexivity.
Qed.

Lemma cache_valid_stored (w : world) (c : string) (t : Z) :
  cachedClientId w = Some c -> String.length c = 32%nat -> t < clientIdExpiry w ->
  cache_valid w t = Some c.
Proof.
  intros C L T. unfold cache_valid. rewrite C.
  destruct c; [discriminate|]. simpl.
  apply Z.ltb_lt in T. rewrite T. reflexivity.
Qed.

Lemma cache_valid_expired (w : world) (t : Z) :
  clientIdExpiry w <= t -> cache_valid w t = None.
Proof.
  intros T. unfold cache_valid. destruct (cachedClientId w); [|reflexivity].
  apply Z.ltb_ge in T. rewrite T, andb_false_r. reflexivity.
Qed.

Lemma sequential_reuse (now : Z) (e : env) (w w1 : world) (c : string) :
  cache_valid w now = None ->
  getClientId_at now e w = (Ok c, w1) ->
  (forall t, t < now + 3600000 -> getClientId_at t e w1 = (Ok c, w1)) /\
  (forall times, Forall (fun t => t < now + 3600000) times ->
     getClientId_each times e w1 = (map (fun _ => Ok c) times, w1)) /\
  (forall t, now + 3600000 <= t ->
     getClientId_at t e w1 = scrape t e w1 /\
     scrapes (snd (getClientId_at t e w1)) = S (scrapes w1)).
Proof.
  intros Miss G. unfold getClientId_at in G. rewrite Miss in G.
  destruct (scrape_ok now e w w1 c G) as (C & X & L). unfold ttl in X.
  assert (Hit : forall t, t < now + 3600000 -> getClientId_at t e w1 = (Ok c, w1)).
  { intros t T. unfold getClientId_at.
    rewrite (cache_valid_stored w1 c t C L); [reflexivity|lia]. }
  split; [exact Hit|]. split.
  - induction 1 as [|t times Ht _ IH]; [reflexivity|].
    simpl. rewrite (Hit t Ht), IH. reflexivity.
  - intros t T. unfold getClientId_at.
    rewrite (cache_valid_expired w1 t); [|lia].
    split; [reflexivity|apply scrape_counts_once].
Qed.

Lemma set_nth_same {A} (l : list A) (i : nat) (x : A) :
  nth_error l i = Some x -> set_nth i x l = l.
Proof.
  revert i. induction l as [|a l IH]; intros i; destruct i as [|i]; simpl;
    try discriminate.
  - intros E; inversion E; reflexivity.
  - intros E. now rewrite (IH i E).
Qed.

(** With every call returned and a credential valid for all of them, calls
    are served from the cache and resumptions find nothing to resume. *)
Lemma quiescent_run (evs : list event) (p : pool) (c : string) :
  Forall returned (calls p) ->
  cachedClientId (module p) = Some c ->
  String.length c = 32%nat ->
  Forall (fun t => t < clientIdExpiry (module p)) (call_times evs) ->
  module (run evs p) = module p /\
  calls (run evs p) = (calls p ++ map (fun _ => Returned (Ok c)) (call_times evs))%list.
Proof.
  revert p. induction evs as [|ev evs IH]; intros p Q C L T.
  - simpl. rewrite app_nil_r. split; reflexivity.
  - destruct ev as [t|i got].
    + change (call_times (Call t :: evs)) with (t :: call_times evs) in *.
      inversion T as [|t' ts Ht Ts]; subst.
      assert (S : step p (Call t)
                  = {| module := module p; calls := calls p ++ [Returned (Ok c)] |}).
      { unfold step. rewrite (cache_valid_stored (module p) c t C L Ht). reflexivity. }
      change (run (Call t :: evs) p) with (run evs (step p (Call t))). rewrite S.
      destruct (IH {| module := module p; calls := calls p ++ [Returned (Ok c)] |})
        as [M K]; simpl; auto.
      { apply Forall_app. split; [exact Q|repeat constructor]. }
      simpl in M, K. rewrite M, K, <- app_assoc. split; reflexivity.
    + change (call_times (Resume i got :: evs)) with (call_times evs) in *.
      assert (S : step p (Resume i got) = p).
      { unfold step. destruct (nth_error (calls p) i) as [c0|] eqn:N; [|reflexivity].
        assert (R : returned c0).
        { apply nth_error_In in N. rewrite Forall_forall in Q. now apply Q. }
        destruct c0 as [n|n rest|r]; try contradiction. simpl.
        rewrite (set_nth_same _ _ _ N). destruct p; reflexivity. }
      change (run (Resume i got :: evs) p) with (run evs (step p (Resume i got))).
      rewrite S. now apply IH.
Qed.

(** C4 (as amended).  After a call at clock reading [now] that missed the
    cache and scraped the credential [c], and with no other call in flight:
    every call made at a reading below [now + 3600000] returns [c] itself and
    leaves the module state and the request log as they are (no scrape),
    however many such calls are made, whether they are read one after the
    other or as events on a pool whose calls have all returned; and a call
    made at a reading of [now + 3600000] or more runs the scrape again,
    adding one request for the landing page. *)
Theorem credential_reused_until_expiry (now : Z) (e : env) (w w1 : world) (c : string) :
  cache_valid w now = None ->
  getClientId_at now e w = (Ok c, w1) ->
  (forall t, t < now + 3600000 -> getClientId_at t e w1 = (Ok c, w1)) /\
  (forall times, Forall (fun t => t < now + 3600000) times ->
     getClientId_each times e w1 = (map (fun _ => Ok c) times, w1)) /\
  (forall t, now + 3600000 <= t ->
     getClientId_at t e w1 = scrape t e w1 /\
     scrapes (snd (getClientId_at t e w1)) = S (scrapes w1)) /\
  (forall (p : pool) (evs : list event),
     module p = w1 ->
     Forall returned (calls p) ->
     Forall (fun t => t < now + 3600000) (call_times evs) ->
     module (run evs p) = w1 /\
     calls (run evs p) = (calls p ++ map (fun _ => Returned (Ok c)) (call_times evs))%list).
Proof.
  intros Miss G.
  destruct (sequential_reuse now e w w1 c Miss G) as (A & B & C).
  split; [exact A|]. split; [exact B|]. split; [exact C|].
  intros p evs M Q T.
  unfold getClientId_at in G. rewrite Miss in G.
  destruct (scrape_ok now e w w1 c G) as (Cc & X & L). unfold ttl in X.
  rewrite <- M in Cc, X |- *.
  apply quiescent_run; auto. now rewrite X.
Qed.

Lemma credential_reused_until_expiry_witness :
  let w1 := snd (getClientId_at 5 scrape_env initial_world) in
  getClientId_each [5; 6; 3600004] scrape_env w1
    = ([Ok demo_token; Ok demo_token; Ok demo_token], w1) /\
  scrapes (snd (getClientId_at 3600005 scrape_env w1)) = S (scrapes w1) /\
  calls (run [Call 6; Resume 0 None; Call 3600004]
           {| module := w1; calls := [Returned (Ok demo_token)] |})
    = [Returned (Ok demo_token); Returned (Ok demo_token); Returned (Ok demo_token)].
Proof.
  destruct (credential_reused_until_expiry 5 scrape_env initial_world
              (store demo_token (5 + ttl)
                 (log (Url demo_script_url) (log homepage initial_world)))
              demo_token eq_refl eq_refl) as (_ & again & after & quiet).
  split; [|split].
  - apply (again [5; 6; 3600004]). repeat constructor.
  - apply (after 3600005). lia.
  - apply (quiet {| module := store demo_token (5 + ttl)
                                (log (Url demo_script_url) (log homepage initial_world));
                    calls := [Returned (Ok demo_token)] |}
                 [Call 6; Resume 0 None; Call 3600004]).
    + reflexivity.
    + repeat constructor.
    + repeat constructor.
Defined.

(** C4, as stated, fails when scrapes overlap: two calls start on a miss;
    after the first has stored its token a call at reading 2 is served that
    token from the cache; after the second has stored another token a call
    at reading 3 is served the other one.  Both late calls are made inside
    the hour and neither scrapes, yet they return different credentials. *)
Lemma overlapping_scrapes_change_the_credential :
  let after_first := run (firstn 5 overlapping_callers) idle_pool in
  let after_second := run (firstn 7 overlapping_callers) idle_pool in
  let final := run overlapping_callers idle_pool in
  cache_valid (module after_first) 2 = Some demo_token /\
  cache_valid (module after_second) 3 = Some other_token /\
  nth_error (calls final) 2 = Some (Returned (Ok demo_token)) /\
  nth_error (calls final) 3 = Some (Returned (Ok other_token)) /\
  scrapes (module final) = 2%nat /\
  2 < clientIdExpiry (module after_first) /\
  3 < clientIdExpiry (module after_first) /\
  demo_token <> other_token.
Proof.
  vm_compute. repeat split; try reflexivity; discriminate.
Qed.

(** ** Interleaved calls *)

Lemma next_script_alone (now : Z) (urls : list string) (w w' : world) :
  fst (next_script now urls w) = fst (next_script now urls w').
Proof.
  induction urls as [|u urls IH]; simpl; [reflexivity|].
  destruct (includes "sndcdn.com" u); [reflexivity|exact IH].
Qed.

Lemma resume_alone_fst (c : call_state) (got : option string) (w : world) :
  fst (resume c got w) = resume_alone c got.
Proof.
  unfold resume_alone.
  destruct c as [now|now rest|r]; simpl; try reflexivity;
    destruct got as [s|]; try reflexivity; try apply next_script_alone.
  destruct (client_id_match s); [reflexivity|apply next_script_alone].
Qed.

Lemma next_script_scrapes (now : Z) (urls : list string) (w : world) :
  scrapes (snd (next_script now urls w)) = scrapes w.
Proof.
  induction urls as [|u urls IH]; simpl; [reflexivity|].
  destruct (includes "sndcdn.com" u) eqn:C; [|exact IH].
  unfold scrapes. simpl requests. simpl filter.
  apply on_cdn_not_homepage in C. simpl in C. rewrite C. reflexivity.
Qed.

Lemma resume_scrapes (c : call_state) (got : option string) (w : world) :
  scrapes (snd (resume c got w)) = scrapes w.
Proof.
  destruct c as [now|now rest|r]; simpl; try reflexivity;
    destruct got as [s|]; try reflexivity; try apply next_script_scrapes.
  destruct (client_id_match s); [reflexivity|apply next_script_scrapes].
Qed.

Lemma step_scrapes (p : pool) (ev : event) :
  match ev with Call now => cache_valid (module p) now = None | Resume _ _ => True end ->
  scrapes (module (step p ev)) =
    (scrapes (module p) + (if is_call ev then 1 else 0))%nat.
Proof.
  destruct ev as [now|i got]; simpl.
  - intros ->. simpl. unfold scrapes. simpl. lia.
  - intros _. destruct (nth_error (calls p) i) as [c|]; [|lia].
    pose proof (resume_scrapes c got (module p)) as R.
    destruct (resume c got (module p)) as [c' w']. simpl in *. lia.
Qed.

Lemma nth_error_set_nth {A} (l : list A) (i j : nat) (x : A) :
  nth_error (set_nth i x l) j =
    if (j =? i)%nat then match nth_error l j with Some _ => Some x | None => None end
    else nth_error l j.
Proof.
  revert i j. induction l as [|a l IH]; intros i j; simpl.
  - destruct i, j; simpl; try reflexivity. destruct (j =? i)%nat; reflexivity.
  - destruct i as [|i]; destruct j as [|j]; simpl; try reflexivity. apply IH.
Qed.

(** A call is moved by the events addressed to it and by nothing else. *)
Lemma step_call (p : pool) (ev : event) (i : nat) (c : call_state) :
  nth_error (calls p) i = Some c ->
  nth_error (calls (step p ev)) i = Some (fold_left resume_alone (handed i [ev]) c).
Proof.
  intros N. destruct ev as [now|j got]; simpl.
  - assert (I : (i < List.length (calls p))%nat) by (apply nth_error_Some; congruence).
    destruct (cache_valid (module p) now); simpl; rewrite nth_error_app1; auto.
  - destruct (nth_error (calls p) j) as [cj|] eqn:J.
    + pose proof (resume_alone_fst cj got (module p)) as F.
      destruct (resume cj got (module p)) as [c' w']. simpl in *.
      rewrite nth_error_set_nth.
      destruct (Nat.eqb_spec j i) as [->|D].
      * rewrite Nat.eqb_refl, N. simpl. congruence.
      * destruct (Nat.eqb_spec i j); [congruence|]. simpl. exact N.
    + destruct (Nat.eqb_spec j i) as [->|D]; [congruence|]. simpl. exact N.
Qed.

Lemma run_call (evs : list event) (p : pool) (i : nat) (c : call_state) :
  nth_error (calls p) i = Some c ->
  nth_error (calls (run evs p)) i = Some (fold_left resume_alone (handed i evs) c).
Proof.
  revert p c. induction evs as [|ev evs IH]; intros p c N; [exact N|].
  simpl run. rewrite (IH (step p ev) _ (step_call p ev i c N)).
  change (ev :: evs) with ([ev] ++ evs)%list.
  unfold handed. rewrite flat_map_app, fold_left_app. reflexivity.
Qed.

Lemma run_app (evs evs' : list event) (p : pool) :
  run (evs ++ evs') p = run evs' (run evs p).
Proof. apply fold_left_app. Qed.

Lemma all_miss_app (evs evs' : list event) (p : pool) :
  all_miss (evs ++ evs') p <-> all_miss evs p /\ all_miss evs' (run evs p).
Proof.
  revert p. induction evs as [|ev evs IH]; intros p; simpl; [tauto|].
  rewrite IH. tauto.
Qed.

Lemma run_scrapes (evs : list event) (p : pool) :
  all_miss evs p ->
  scrapes (module (run evs p)) = (scrapes (module p) + List.length (filter is_call evs))%nat.
Proof.
  revert p. induction evs as [|ev evs IH]; intros p; simpl.
  - intros _. lia.
  - intros [M A]. rewrite (IH _ A), (step_scrapes p ev M).
    destruct (is_call ev); simpl; lia.
Qed.

(** C1 (as amended).  Along any interleaving in which every call started
    finds no valid credential, each such call begins a scrape of its own: the
    number of requests for the landing page grows by the number of calls
    started.  And a call that started on a miss ends where the texts handed
    to it, and they alone, lead it, whatever the other calls do in between. *)
Theorem every_miss_scrapes (evs : list event) (p : pool) :
  all_miss evs p ->
  scrapes (module (run evs p)) = (scrapes (module p) + List.length (filter is_call evs))%nat /\
  (forall before now after,
      evs = (before ++ Call now :: after)%list ->
      nth_error (calls (run evs p)) (List.length (calls (run before p)))
        = Some (fold_left resume_alone
                  (handed (List.length (calls (run before p))) after)
                  (AwaitPage now))).
Proof.
  intros A. split; [now apply run_scrapes|].
  intros before now after ->.
  apply all_miss_app in A. destruct A as [_ [M _]].
  rewrite run_app. simpl run.
  apply run_call. simpl. rewrite M. simpl.
  rewrite nth_error_app2, Nat.sub_diag; [reflexivity|lia].
Qed.

Lemma every_miss_scrapes_witness :
  scrapes (module (run two_callers idle_pool)) = 2%nat /\
  nth_error (calls (run two_callers idle_pool)) 1 = Some (Returned (Ok other_token)).
Proof.
  assert (A : all_miss two_callers idle_pool) by (repeat split).
  destruct (every_miss_scrapes two_callers idle_pool A) as (count & own).
  split.
  - exact count.
  - exact (own [Call 0] 1
             [Resume 0 (Some demo_page); Resume 1 (Some demo_page);
              Resume 0 (Some demo_script); Resume 1 (Some other_script)] eq_refl).
Defined.

(** C1, as stated, fails: two calls that both find the cache empty send two
    requests for the landing page, not one, and each returns the token of
    its own scrape (here two different tokens). *)
Lemma two_callers_two_scrapes :
  all_miss two_callers idle_pool /\
  scrapes (module (run two_callers idle_pool)) = 2%nat /\
  calls (run two_callers idle_pool) = [Returned (Ok demo_token); Returned (Ok other_token)] /\
  scrapes (module (run two_callers idle_pool)) <> 1%nat.
Proof.
  split; [repeat split|]. vm_compute. repeat split. discriminate.
Qed.

(** *** A call on its own is the sequential [getClientId] *)

Lemma drive_returned (fuel : nat) (e : env) (w : world) (r : result string) :
  drive fuel e {| module := w; calls := [Returned r] |} = {| module := w; calls := [Returned r] |}.
Proof. destruct fuel; reflexivity. Qed.

Lemma drive_try_scripts (now : Z) (e : env) (urls : list string) (w : world) :
  exists fuel,
    drive fuel e {| module := snd (next_script now urls w);
                    calls := [fst (next_script now urls w)] |}
    = {| module := snd (try_scripts now urls e w);
         calls := [Returned (fst (try_scripts now urls e w))] |}.
Proof.
  revert w. induction urls as [|u urls IH]; intros w; simpl.
  - exists O. reflexivity.
  - destruct (includes "sndcdn.com" u); [|apply IH].
    destruct (IH (log (Url u) w)) as [k K].
    exists (S k). simpl.
    unfold answer, script_token, bind, fetch, text, ret, throw. simpl.
    destruct (upstream e (requests w) (Url u)) as [r|].
    + destruct (res_text r) as [content|]; simpl.
      * destruct (client_id_match content) as [c|]; simpl.
        -- apply drive_returned.
        -- destruct (next_script now urls (log (Url u) w)) as [c' w']. exact K.
      * destruct (next_script now urls (log (Url u) w)) as [c' w']. exact K.
    + destruct (next_script now urls (log (Url u) w)) as [c' w']. exact K.
Qed.

(** X18.  With no other call running, a call resumed await by await with
    what the upstream serves ends, after finitely many resumptions, in the
    result and the module state of [getClientId_at]. *)
Lemma drive_is_getClientId (now : Z) (e : env) (w : world) :
  exists fuel,
    drive fuel e (step {| module := w; calls := [] |} (Call now))
    = {| module := snd (getClientId_at now e w);
         calls := [Returned (fst (getClientId_at now e w))] |}.
Proof.
  unfold getClientId_at. simpl.
  destruct (cache_valid w now) as [c|].
  - exists O. reflexivity.
  - unfold scrape, bind, fetch, text, ret, throw.
    destruct (upstream e (requests w) homepage) as [r|] eqn:U.
    + destruct (res_text r) as [html|] eqn:T.
      * destruct (drive_try_scripts now e (script_srcs html) (log homepage w)) as [k K].
        exists (S k). simpl. unfold answer. simpl. rewrite U, T. simpl.
        destruct (next_script now (script_srcs html) (log homepage w)) as [c' w']. exact K.
      * exists 1%nat. simpl. unfold answer. simpl. rewrite U, T. reflexivity.
    + exists 1%nat. simpl. unfold answer. simpl. rewrite U. reflexivity.
Qed.

(** ** The model run on concrete inputs *)

Example script_srcs_demo_page : script_srcs demo_page = [demo_script_url].
Proof. reflexivity. Qed.

Example script_srcs_resumes_after_match :
  script_srcs ("src=" ++ String dquote ("https://a/b.js" ++ String dquote
               ("src=" ++ String dquote ("https://c/d.css" ++ String dquote
               (" src=" ++ String dquote ("https://e.sndcdn.com/f.js" ++ String dquote ""))))))
  = ["https://a/b.js"; "https://e.sndcdn.com/f.js"].
Proof. reflexivity. Qed.

Example client_id_match_demo_script : client_id_match demo_script = Some demo_token.
Proof. reflexivity. Qed.

Example client_id_match_wants_32 :
  client_id_match ("client_id=" ++ String squote ("0123456789abcdef" ++ String squote "")) = None.
Proof. reflexivity. Qed.

Example parseInt_samples :
  (parseInt "600", parseInt "720p", parseInt " -12", parseInt "0x1f", parseInt "best", parseInt "")
  = (Some 600, Some 720, Some (-12), Some 31, None, None).
Proof. reflexivity. Qed.

(** A [/stream] request end to end: one scrape (the second [getClientId] is
    served from the cache), the resolve request, and the exchange of the
    progressive transcoding for the signed link. *)
Example stream_end_to_end :
  let req := {| method := "GET"; pathname := "/stream";
                searchParams := [("url", "https://soundcloud.com/a/night-drive")] |} in
  let (reply, w) := worker_fetch req stream_env initial_world in
  status reply = 200 /\
  option_map (fun b => get_opt b "url") (body reply) = Some (VStr signed_link) /\
  List.length (requests w) = 4%nat /\
  scrapes w = 1%nat.
Proof. vm_compute. repeat split. Qed.

(** The endpoint on the heights 1080, 720, 480 with the request 600. *)
Example youtube_video_ladder (chooseFormat : YouTube.chooser) :
  let getInfo := fun _ : string => Ok {| YouTube.title := "clip"; YouTube.formats := ladder |} in
  let reply := YouTube.youtube_video chooseFormat getInfo (Some "https://youtu.be/x") (Some "600") in
  YouTube.code reply = 200 /\
  get_opt (YouTube.payload reply) "url" = opt_url (muxed 480).
Proof. split; reflexivity. Qed.

(** * Further properties of the worker *)

(** ** Relations every operation respects *)

Section Respects.

Variable R : nat -> world -> world -> Prop.
Hypothesis R_refl : forall w, R 0 w w.
Hypothesis R_trans : forall n k w1 w2 w3, R n w1 w2 -> R k w2 w3 -> R (n + k) w1 w3.
Hypothesis R_weaken : forall n k w w', (n <= k)%nat -> R n w w' -> R k w w'.
Hypothesis R_url : forall u w, R 0 w (log (Url u) w).
Hypothesis R_query : forall base params w,
  api_endpoint base -> R 1 w (log (Query base params) w).
Hypothesis R_store : forall c expiry w,
  String.length c = 32%nat -> all_chars is_alnum c = true -> R 0 w (store c expiry w).

Lemma respects_ret {A} (a : A) : respects R 0 (ret a).
Proof. intros e w. apply R_refl. Qed.

Lemma respects_throw {A} (x : exn) : respects R 0 (@throw A x).
Proof. intros e w. apply R_refl. Qed.

Lemma respects_lift {A} (r : result A) : respects R 0 (lift r).
Proof. intros e w. apply R_refl. Qed.

Lemma respects_text (r : response) : respects R 0 (text r).
Proof. unfold text. destruct (res_text r); [apply respects_ret|apply respects_throw]. Qed.

Lemma respects_json (r : response) : respects R 0 (json r).
Proof. unfold json. destruct (res_json r); [apply respects_ret|apply respects_throw]. Qed.

Lemma respects_fetch_url (u : string) : respects R 0 (fetch (Url u)).
Proof.
  intros e w. unfold fetch. destruct (upstream e (requests w) (Url u)); apply R_url.
Qed.

Lemma respects_fetch_query (base : string) (params : list (string * string)) :
  api_endpoint base -> respects R 1 (fetch (Query base params)).
Proof.
  intros B e w. unfold fetch. destruct (upstream e (requests w) _); now apply R_query.
Qed.

Lemma respects_bind {A B} (n k : nat) (m : M A) (f : A -> M B) :
  respects R n m -> (forall a, respects R k (f a)) -> respects R (n + k) (bind m f).
Proof.
  intros Hm Hf e w. unfold bind. specialize (Hm e w).
  destruct (m e w) as [[a|x] w1]; simpl in *.
  - eapply R_trans; [exact Hm|apply Hf].
  - eapply R_weaken; [|exact Hm]. lia.
Qed.

Lemma respects_script_token (u : string) : respects R 0 (script_token u).
Proof.
  unfold script_token.
  apply (respects_bind 0 0); [apply respects_fetch_url|]. intros r.
  apply (respects_bind 0 0); [apply respects_text|]. intros s. apply respects_ret.
Qed.

Lemma script_token_shape (u : string) (e : env) (w w1 : world) (c : string) :
  script_token u e w = (Ok (Some c), w1) ->
  String.length c = 32%nat /\ all_chars is_alnum c = true.
Proof.
  unfold script_token, bind, fetch, text, ret, throw.
  destruct (upstream e (requests w) (Url u)) as [r|]; [|discriminate].
  destruct (res_text r) as [content|]; [|discriminate].
  intros E; inversion E. now apply client_id_match_shape with (s := content).
Qed.

Lemma respects_try_scripts (now : Z) (urls : list string) : respects R 0 (try_scripts now urls).
Proof.
  induction urls as [|u urls IH]; simpl; [apply respects_throw|].
  destruct (includes "sndcdn.com" u); [|exact IH].
  intros e w. pose proof (respects_script_token u e w) as T.
  destruct (script_token u e w) as [[[c|]|x] w1] eqn:E; simpl in T.
  - destruct (script_token_shape u e w w1 c E) as [L A]. simpl.
    apply (R_trans 0 0 w w1); [exact T|now apply R_store].
  - apply (R_trans 0 0 w w1); [exact T|apply IH].
  - apply (R_trans 0 0 w w1); [exact T|apply IH].
Qed.

Lemma respects_getClientId : respects R 0 getClientId.
Proof.
  intros e w. unfold getClientId, getClientId_at.
  destruct (cache_valid w _); [apply R_refl|].
  apply (respects_bind 0 0 (fetch homepage)); [apply respects_fetch_url|]. intros r.
  apply (respects_bind 0 0); [apply respects_text|]. intros html.
  apply respects_try_scripts.
Qed.

Lemma respects_searchTracks (query : string) (limit : option Z) :
  respects R 1 (searchTracks query limit).
Proof.
  unfold searchTracks.
  apply (respects_bind 0 1); [apply respects_getClientId|]. intros c.
  apply (respects_bind 1 0); [apply respects_fetch_query; left; reflexivity|]. intros r.
  destruct (negb (res_ok r)); [apply respects_throw|].
  apply (respects_bind 0 0); [apply respects_json|]. intros data. apply respects_lift.
Qed.

Lemma respects_resolveUrl (url : string) : respects R 1 (resolveUrl url).
Proof.
  unfold resolveUrl.
  apply (respects_bind 0 1); [apply respects_getClientId|]. intros c.
  apply (respects_bind 1 0); [apply respects_fetch_query; right; reflexivity|]. intros r.
  destruct (negb (res_ok r)); [apply respects_throw|apply respects_json].
Qed.

Lemma respects_getStreamUrl (trackUrl : string) : respects R 1 (getStreamUrl trackUrl).
Proof.
  unfold getStreamUrl.
  apply (respects_bind 1 0); [apply respects_resolveUrl|]. intros track.
  apply (respects_bind 0 0); [apply respects_lift|]. intros transcoding.
  apply (respects_bind 0 0); [apply respects_getClientId|]. intros c.
  apply (respects_bind 0 0); [apply respects_lift|]. intros target_url.
  apply (respects_bind 0 0); [apply respects_fetch_url|]. intros r.
  destruct (negb (res_ok r)); [apply respects_throw|].
  apply (respects_bind 0 0); [apply respects_json|]. intros data.
  repeat (apply (respects_bind 0 0); [apply respects_lift|]; intros ?).
  apply respects_ret.
Qed.

Lemma respects_route (req : request) : respects R 1 (route req).
Proof.
  assert (Z1 : forall (r : http_response), respects R 1 (ret r)).
  { intros r e w. apply (R_weaken 0); [lia|apply R_refl]. }
  unfold route.
  repeat match goal with
         | |- context [if ?b then _ else _] => destruct b
         | |- context [match present ?x with _ => _ end] => destruct (present x)
         end; try apply Z1;
    (apply (respects_bind 1 0);
     [first [apply respects_searchTracks | apply respects_resolveUrl
            | apply respects_getStreamUrl]
     | intros v; apply respects_ret]).
Qed.

Lemma respects_worker_fetch (req : request) (e : env) (w : world) :
  R 1 w (snd (worker_fetch req e w)).
Proof.
  unfold worker_fetch. destruct (method req =? "OPTIONS")%string.
  - apply (R_weaken 0); [lia|apply R_refl].
  - pose proof (respects_route req e w) as H.
    destruct (route req e w) as [[r|x] w']; exact H.
Qed.

End Respects.

Lemma api_count_log (t : target) (w : world) :
  api_count (log t w) = ((if is_api t then 1 else 0) + api_count w)%nat.
Proof. unfold api_count. simpl. destruct (is_api t); reflexivity. Qed.

(** X1.  Handling a request never leaves anything in the credential cache
    but a token of 32 alphanumeric characters: if the cache is empty or holds
    such a token before a request, whatever the request and whatever the
    upstream answers, it is so after it. *)
Theorem worker_keeps_cache_wf (req : request) (e : env) (w : world) :
  cache_wf w -> cache_wf (snd (worker_fetch req e w)).
Proof.
  apply (respects_worker_fetch keeps_cache); unfold keeps_cache, cache_wf; simpl; auto.
  intros c expiry w0 L A _ c' E. inversion E; subst. auto.
Qed.

Lemma worker_keeps_cache_wf_witness :
  cache_wf (snd (worker_fetch
                   {| method := "GET"; pathname := "/resolve"; searchParams := [("url", "x")] |}
                   scrape_env initial_world)).
Proof.
  apply (worker_keeps_cache_wf _ scrape_env initial_world).
  intros c E. discriminate E.
Defined.

Lemma extends_refl (w : world) : extends_by 0 w w.
Proof. split; [exists []; reflexivity|lia]. Qed.

Lemma extends_trans (n k : nat) (w1 w2 w3 : world) :
  extends_by n w1 w2 -> extends_by k w2 w3 -> extends_by (n + k) w1 w3.
Proof.
  intros [[a A] B] [[b C] D]. split; [|lia].
  exists (b ++ a)%list. rewrite C, A, app_assoc. reflexivity.
Qed.

Lemma extends_weaken (n k : nat) (w w' : world) :
  (n <= k)%nat -> extends_by n w w' -> extends_by k w w'.
Proof. intros L [A B]. split; [exact A|lia]. Qed.

Lemma extends_url (u : string) (w : world) : extends_by 0 w (log (Url u) w).
Proof. split; [exists [Url u]; reflexivity|]. rewrite api_count_log. simpl. lia. Qed.

Lemma extends_query (base : string) (params : list (string * string)) (w : world) :
  extends_by 1 w (log (Query base params) w).
Proof.
  split; [exists [Query base params]; reflexivity|]. rewrite api_count_log. simpl. lia.
Qed.

Lemma extends_store (c : string) (expiry : Z) (w : world) :
  String.length c = 32%nat -> all_chars is_alnum c = true ->
  extends_by 0 w (store c expiry w).
Proof. intros _ _. split; [exists []; reflexivity|]. unfold api_count. simpl. lia. Qed.

Lemma grows_refl (w : world) : grows_by 0 w w.
Proof. exists []. split; [reflexivity|]. split; [simpl; lia|]. intros base params []. Qed.

Lemma grows_trans (n k : nat) (w1 w2 w3 : world) :
  grows_by n w1 w2 -> grows_by k w2 w3 -> grows_by (n + k) w1 w3.
Proof.
  intros (a & A & LA & EA) (b & B & LB & EB). exists (b ++ a)%list.
  split; [rewrite B, A, app_assoc; reflexivity|]. split.
  - rewrite filter_app, length_app. lia.
  - intros base params I. apply in_app_or in I. destruct I as [I|I]; eauto.
Qed.

Lemma grows_weaken (n k : nat) (w w' : world) :
  (n <= k)%nat -> grows_by n w w' -> grows_by k w w'.
Proof.
  intros L (a & A & LA & EA). exists a. split; [exact A|]. split; [lia|exact EA].
Qed.

Lemma grows_url (u : string) (w : world) : grows_by 0 w (log (Url u) w).
Proof.
  exists [Url u]. split; [reflexivity|]. split; [simpl; lia|].
  intros base params [I|[]]. discriminate I.
Qed.

Lemma grows_query (base : string) (params : list (string * string)) (w : world) :
  api_endpoint base -> grows_by 1 w (log (Query base params) w).
Proof.
  intros B. exists [Query base params]. split; [reflexivity|]. split; [simpl; lia|].
  intros base' params' [I|[]]. inversion I; subst. exact B.
Qed.

Lemma grows_store (c : string) (expiry : Z) (w : world) :
  String.length c = 32%nat -> all_chars is_alnum c = true ->
  grows_by 0 w (store c expiry w).
Proof.
  intros _ _. exists []. split; [reflexivity|]. split; [simpl; lia|].
  intros base params [].
Qed.

(** X2.  Handling a request only adds to the log of outbound requests.
    Among the requests it adds, at most one has a URL built from a
    [URLSearchParams] object, and such a request goes to
    [https://api-v2.soundcloud.com/search/tracks] or to
    [https://api-v2.soundcloud.com/resolve]: it is the metadata call of
    [searchTracks] or of [resolveUrl], which is never repeated within a
    request.  (The other requests, to the landing page, to the scripts and
    for the exchange of [/stream], go to the literal URLs the upstream
    names, wherever those point, and are not counted.) *)
Theorem worker_sends_one_api_request (req : request) (e : env) (w : world) :
  (exists newer,
     requests (snd (worker_fetch req e w)) = (newer ++ requests w)%list /\
     (List.length (filter is_api newer) <= 1)%nat /\
     (forall base params,
        In (Query base params) newer ->
        base = "https://api-v2.soundcloud.com/search/tracks" \/
        base = "https://api-v2.soundcloud.com/resolve")) /\
  (api_count (snd (worker_fetch req e w)) <= api_count w + 1)%nat.
Proof.
  assert (G : grows_by 1 w (snd (worker_fetch req e w))).
  { apply (respects_worker_fetch grows_by);
      [exact grows_refl | exact grows_trans | exact grows_weaken
      | exact grows_url | exact grows_query | exact grows_store]. }
  destruct G as (newer & N & L & B). split.
  - exists newer. split; [exact N|]. split; [exact L|exact B].
  - unfold api_count. rewrite N, filter_app, length_app. lia.
Qed.

(** ** Failure of the scrape *)

Lemma cache_valid_fields (w w' : world) (t : Z) :
  cachedClientId w' = cachedClientId w -> clientIdExpiry w' = clientIdExpiry w ->
  cache_valid w' t = cache_valid w t.
Proof. intros C X. unfold cache_valid. rewrite C, X. reflexivity. Qed.

(** X3.  A call of [getClientId] that fails leaves [cachedClientId] and
    [clientIdExpiry] exactly as they were, so the cache answers every later
    clock reading as before the failed call (nothing is poisoned, and a
    credential still valid would not have let the call fail); the failure is
    either the scraper's own [Could not extract client_id] or the rejection
    of the landing-page fetch. *)
Theorem failed_getClientId_changes_nothing
    (now : Z) (e : env) (w w1 : world) (x : exn) :
  getClientId_at now e w = (Throw x, w1) ->
  (x = no_client_id \/ x = FetchRejected) /\
  cachedClientId w1 = cachedClientId w /\
  clientIdExpiry w1 = clientIdExpiry w /\
  cache_valid w now = None /\
  (forall t, cache_valid w1 t = cache_valid w t).
Proof.
  unfold getClientId_at. destruct (cache_valid w now) as [c|] eqn:V; [discriminate|].
  unfold scrape, bind, fetch, text, ret, throw.
  assert (K : forall w0 : world,
             (x = no_client_id \/ x = FetchRejected) /\
             cachedClientId w0 = cachedClientId w /\ clientIdExpiry w0 = clientIdExpiry w ->
             (x = no_client_id \/ x = FetchRejected) /\
             cachedClientId w0 = cachedClientId w /\ clientIdExpiry w0 = clientIdExpiry w /\
             None = @None string /\ (forall t, cache_valid w0 t = cache_valid w t)).
  { intros w0 (A & B & C). repeat split; auto. intros t. now apply cache_valid_fields. }
  destruct (upstream e (requests w) homepage) as [r|].
  - destruct (res_text r) as [html|].
    + intros E. apply K. apply try_scripts_throw in E. destruct E as (-> & C & X).
      repeat split; auto.
    + intros E; inversion E; subst. apply K. repeat split; auto.
  - intros E; inversion E; subst. apply K. repeat split; auto.
Qed.

Lemma failed_getClientId_changes_nothing_witness :
  let w1 := snd (getClientId_at 0 broken_cdn_env initial_world) in
  cachedClientId w1 = None /\ clientIdExpiry w1 = 0.
Proof.
  destruct (failed_getClientId_changes_nothing 0 broken_cdn_env initial_world
              (log (Url demo_script_url) (log homepage initial_world))
              no_client_id eq_refl) as (_ & C & X & _).
  split; [exact C|exact X].
Defined.

Lemma getClientId_no_api (e : env) (w : world) :
  api_count (snd (getClientId e w)) = api_count w.
Proof.
  assert (H : extends_by 0 w (snd (getClientId e w))).
  { apply (respects_getClientId extends_by);
      [exact extends_refl | exact extends_trans | exact extends_weaken
      | exact extends_url | exact extends_store]. }
  destruct H as [[newer N] U].
  assert (L : (api_count w <= api_count (snd (getClientId e w)))%nat).
  { unfold api_count. rewrite N, filter_app, length_app. lia. }
  lia.
Qed.

(** X4.  When the first read of the credential in a request fails (the call
    of [getClientId] that opens [searchTracks] and [resolveUrl]), each of
    [/search], [/resolve] and [/stream] (method other than OPTIONS, parameter
    present) answers 500 with an [error] body, and stops there: the worker is
    left in the state that failed call left, with no request sent after it.
    When the failure is the scraper's own, the message is [Could not extract
    client_id]; when it is the rejection of the landing-page fetch, the
    message is the engine's. *)
Theorem worker_without_credential
    (req : request) (name v : string) (e : env) (w w1 : world) (x : exn) :
  method req <> "OPTIONS" ->
  data_endpoint req name ->
  present (searchParams_get name (searchParams req)) = Some v ->
  getClientId e w = (Throw x, w1) ->
  exists msg,
    worker_fetch req e w = (error_response 500 msg, w1) /\
    (x = no_client_id -> msg = "Could not extract client_id").
Proof.
  intros Hm Hp Hv G.
  exists (exn_message x). split; [|intros ->; reflexivity].
  unfold worker_fetch. destruct (String.eqb_spec (method req) "OPTIONS"); [contradiction|].
  unfold route.
  destruct Hp as [[P ->]|[[P|P] ->]]; rewrite P; simpl; rewrite Hv;
    unfold bind, searchTracks, getStreamUrl, resolveUrl, bind; rewrite G; reflexivity.
Qed.

Lemma worker_without_credential_witness :
  worker_fetch {| method := "GET"; pathname := "/stream"; searchParams := [("url", "x")] |}
    broken_cdn_env initial_world
  = (error_response 500 "Could not extract client_id",
     log (Url demo_script_url) (log homepage initial_world)).
Proof.
  destruct (worker_without_credential
              {| method := "GET"; pathname := "/stream"; searchParams := [("url", "x")] |}
              "url" "x" broken_cdn_env initial_world
              (log (Url demo_script_url) (log homepage initial_world)) no_client_id
              ltac:(discriminate) (or_intror (conj (or_intror eq_refl) eq_refl))
              eq_refl eq_refl) as (msg & E & M).
  rewrite E, (M eq_refl). reflexivity.
Defined.

(** ** What each status of the worker means *)

Lemma route_outcome (req : request) (e : env) (w w' : world) (r : http_response) :
  route req e w = (Ok r, w') ->
  status r = 200 \/
  (status r = 400 /\ exists name, data_endpoint req name /\
                                  present (searchParams_get name (searchParams req)) = None) \/
  (status r = 404 /\ ~ recognized (pathname req)).
Proof.
  unfold route, data_endpoint, recognized.
  destruct (String.eqb_spec (pathname req) "/health") as [P0|N0].
  { intros E; inversion E. left; reflexivity. }
  destruct (String.eqb_spec (pathname req) "/search") as [P1|N1].
  { destruct (present (searchParams_get "q" (searchParams req))) eqn:Q.
    - unfold bind. destruct (searchTracks _ _ e w) as [[t|x] w1]; [|discriminate].
      intros E; inversion E. left; reflexivity.
    - intros E; inversion E. right; left. split; [reflexivity|]. exists "q". auto. }
  destruct (String.eqb_spec (pathname req) "/resolve") as [P2|N2].
  { destruct (present (searchParams_get "url" (searchParams req))) eqn:Q.
    - unfold bind. destruct (resolveUrl _ e w) as [[t|x] w1]; [|discriminate].
      intros E; inversion E. left; reflexivity.
    - intros E; inversion E. right; left. split; [reflexivity|]. exists "url". auto. }
  destruct (String.eqb_spec (pathname req) "/stream") as [P3|N3].
  { destruct (present (searchParams_get "url" (searchParams req))) eqn:Q.
    - unfold bind. destruct (getStreamUrl _ e w) as [[t|x] w1]; [|discriminate].
      intros E; inversion E. left; reflexivity.
    - intros E; inversion E. right; left. split; [reflexivity|]. exists "url". auto. }
  intros E; inversion E. right; right. split; [reflexivity|]. tauto.
Qed.

(** X5.  The worker answers with 200, 400, 404 or 500 and nothing else; it
    answers 400 only to one of the three data endpoints whose required
    parameter is missing or empty, and 404 only to a path that is not one of
    its endpoints (so no upstream outcome is ever reported as 400 or 404);
    and the only response without a body is the one to OPTIONS. *)
Theorem worker_status_meaning (req : request) (e : env) (w : world) :
  let r := fst (worker_fetch req e w) in
  (status r = 200 \/ status r = 400 \/ status r = 404 \/ status r = 500) /\
  (status r = 400 ->
   exists name, data_endpoint req name /\
                present (searchParams_get name (searchParams req)) = None) /\
  (status r = 404 -> ~ recognized (pathname req)) /\
  (body r = None <-> method req = "OPTIONS").
Proof.
  unfold worker_fetch.
  destruct (String.eqb_spec (method req) "OPTIONS") as [O|O]; simpl.
  - repeat split; auto; discriminate.
  - destruct (route req e w) as [[r|x] w'] eqn:E; simpl.
    + pose proof (route_headers req e w w' r E) as _.
      assert (B : body r <> None).
      { revert E. unfold route.
        repeat match goal with
               | |- context [if ?b then _ else _] => destruct b
               | |- context [match present ?x with _ => _ end] => destruct (present x)
               end;
          unfold bind, ret;
          repeat match goal with
                 | |- context [match ?m e w with _ => _ end] => destruct (m e w) as [[?|?] ?]
                 end;
          intros H; inversion H; discriminate. }
      destruct (route_outcome req e w w' r E) as [S|[[S N]|[S N]]]; rewrite S;
        repeat split; auto; try discriminate; try tauto; try (intros; contradiction).
    + repeat split; auto; try discriminate; try (intros; contradiction).
Qed.

(** ** What the scraper requests *)

Lemma append_assoc3 (a b c : string) : (a ++ b) ++ c = a ++ (b ++ c).
Proof. induction a as [|x a IH]; simpl; [reflexivity|now rewrite IH]. Qed.

Lemma append_empty_r (a : string) : a ++ "" = a.
Proof. induction a as [|x a IH]; simpl; [reflexivity|now rewrite IH]. Qed.

Lemma length_append3 (a b : string) :
  String.length (a ++ b) = (String.length a + String.length b)%nat.
Proof. induction a as [|x a IH]; simpl; [reflexivity|now rewrite IH]. Qed.

Lemma all_chars_append (p : ascii -> bool) (a b : string) :
  all_chars p (a ++ b) = all_chars p a && all_chars p b.
Proof.
  induction a as [|x a IH]; simpl; [reflexivity|]. rewrite IH, andb_assoc. reflexivity.
Qed.

Lemma substring_whole (s : string) : substring 0 (String.length s) s = s.
Proof. induction s as [|c s IH]; simpl; [reflexivity|now rewrite IH]. Qed.

Lemma substring_cut (s : string) (i : nat) :
  (i <= String.length s)%nat ->
  s = substring 0 i s ++ substring i (String.length s - i) s.
Proof.
  revert i. induction s as [|c s IH]; intros i L; simpl in L.
  - destruct i; [reflexivity|lia].
  - destruct i as [|i].
    + simpl. rewrite substring_whole. reflexivity.
    + simpl. f_equal. apply IH. lia.
Qed.

Lemma ends_with_split (suffix s : string) :
  ends_with suffix s = true -> exists pre, s = pre ++ suffix.
Proof.
  unfold ends_with. intros H. apply andb_true_iff in H. destruct H as [L E].
  apply Nat.leb_le in L. apply String.eqb_eq in E.
  exists (substring 0 (String.length s - String.length suffix) s).
  rewrite <- E at 2.
  replace (String.length suffix) with
    (String.length s - (String.length s - String.length suffix))%nat at 3 by lia.
  apply substring_cut. lia.
Qed.

Lemma until_dquote_split (s run rest : string) :
  until_dquote s = Some (run, rest) ->
  s = run ++ String dquote rest /\ all_chars not_dquote run = true.
Proof.
  revert run. induction s as [|c s IH]; intros run; simpl; [discriminate|].
  destruct (Ascii.eqb_spec c dquote) as [->|N].
  - intros E; inversion E; subst. split; reflexivity.
  - destruct (until_dquote s) as [[run' rest']|]; [|discriminate].
    intros E; inversion E; subst. destruct (IH run' eq_refl) as [-> A].
    split; [reflexivity|]. simpl. rewrite A. unfold not_dquote.
    destruct (Ascii.eqb_spec c dquote); [contradiction|reflexivity].
Qed.

Lemma script_src_here_shape (s u : string) (len : nat) :
  script_src_here s = Some (u, len) ->
  (exists post, s = quoted_src u ++ post) /\ https_script u /\ (0 < len)%nat.
Proof.
  unfold script_src_here.
  destruct (strip_prefix src_https s) as [r|] eqn:P; [|discriminate].
  apply strip_prefix_app in P.
  destruct (until_dquote r) as [[run rest]|] eqn:U; [|discriminate].
  destruct (until_dquote_split r run rest U) as [-> A].
  destruct (ends_with ".js" run) eqn:J; [|discriminate].
  intros E; inversion E; subst u len; clear E.
  split; [|split].
  - exists rest. subst s. unfold quoted_src, src_https. simpl.
    rewrite !append_assoc3. reflexivity.
  - split.
    + destruct (ends_with_split ".js" run J) as [middle ->]. exists middle. reflexivity.
    + simpl. exact A.
  - lia.
Qed.

Lemma script_srcs_from_sound (s : string) (skip : nat) (u : string) :
  In u (script_srcs_from skip s) -> occurs (quoted_src u) s /\ https_script u.
Proof.
  revert skip. induction s as [|c s IH]; intros skip; simpl; [intros []|].
  assert (Later : forall k, In u (script_srcs_from k s) ->
                            occurs (quoted_src u) (String c s) /\ https_script u).
  { intros k I. destruct (IH k I) as [(pre & post & ->) H]. split; [|exact H].
    exists (String c pre), post. reflexivity. }
  destruct skip as [|k]; [|apply Later].
  destruct (script_src_here (String c s)) as [[v len]|] eqn:H; [|apply Later].
  intros [<-|I]; [|exact (Later _ I)].
  destruct (script_src_here_shape _ _ _ H) as ((post & E) & S & _).
  split; [|exact S]. exists "", post. rewrite E. reflexivity.
Qed.

(** X6.  Every URL the scraper takes from the landing page occurs there as
    the double-quoted value of a [src] attribute, starts with [https://],
    ends with [.js] and holds no double quote. *)
Theorem script_srcs_sound (html u : string) :
  In u (script_srcs html) -> occurs (quoted_src u) html /\ https_script u.
Proof. apply script_srcs_from_sound. Qed.

Lemma script_srcs_sound_witness :
  occurs (quoted_src demo_script_url) demo_page /\ https_script demo_script_url.
Proof.
  apply (script_srcs_sound demo_page demo_script_url). left. reflexivity.
Defined.

Lemma prefix_split (p s : string) : prefix p s = true <-> exists r, s = p ++ r.
Proof.
  revert p. induction s as [|b s IH]; intros p; destruct p as [|a p]; simpl.
  - split; [intros _; exists ""; reflexivity|reflexivity].
  - split; [discriminate|intros [r E]; discriminate].
  - split; [intros _; exists (String b s); reflexivity|reflexivity].
  - destruct (ascii_dec a b) as [->|N].
    + rewrite IH. split; intros [r E]; exists r; [now rewrite E|now inversion E].
    + split; [discriminate|intros [r E]; inversion E; congruence].
Qed.

Lemma includes_occurs (needle hay : string) :
  includes needle hay = true <-> occurs needle hay.
Proof.
  unfold occurs. induction hay as [|c hay IH].
  - change (includes needle "") with (if prefix needle "" then true else false).
    destruct (prefix needle "") eqn:P.
    + split; [intros _|reflexivity]. apply prefix_split in P. destruct P as [r E].
      exists "", r. exact E.
    + split; [discriminate|]. intros (pre & post & E).
      destruct pre; [|discriminate]. simpl in E.
      assert (prefix needle "" = true) by (apply prefix_split; exists post; exact E).
      congruence.
  - change (includes needle (String c hay)) with
      (if prefix needle (String c hay) then true else includes needle hay).
    destruct (prefix needle (String c hay)) eqn:P.
    + split; [intros _|reflexivity]. apply prefix_split in P. destruct P as [r E].
      exists "", r. exact E.
    + rewrite IH. split.
      * intros (pre & post & ->). exists (String c pre), post. reflexivity.
      * intros (pre & post & E). destruct pre as [|b pre].
        -- simpl in E.
           assert (prefix needle (String c hay) = true)
             by (apply prefix_split; exists post; exact E).
           congruence.
        -- simpl in E. inversion E; subst. exists pre, post. reflexivity.
Qed.

Lemma try_scripts_requests (now : Z) (e : env) (urls : list string) (w : world) (t : target) :
  In t (requests (snd (try_scripts now urls e w))) ->
  In t (requests w) \/ exists u, t = Url u /\ In u urls /\ on_cdn u = true.
Proof.
  destruct (try_scripts_log now e urls w) as (fetched & rest & F & R).
  rewrite R. intros I. apply in_app_or in I. destruct I as [I|I]; [right|now left].
  apply in_rev, in_map_iff in I. destruct I as (u & <- & I).
  exists u. split; [reflexivity|].
  assert (I' : In u (filter on_cdn urls)) by (rewrite F; apply in_or_app; now left).
  apply filter_In in I'. exact I'.
Qed.

(** X7.  Whatever the upstream serves, a call of [getClientId] requests
    nothing but the landing page and script URLs read from that page's [src]
    attributes, each an [https] URL ending in [.js] that contains
    [sndcdn.com]. *)
Theorem getClientId_requests_only_cdn_scripts
    (now : Z) (e : env) (w : world) (t : target) :
  In t (requests (snd (getClientId_at now e w))) ->
  In t (requests w) \/ t = homepage \/
  exists r html u,
    upstream e (requests w) homepage = Some r /\ res_text r = Some html /\
    t = Url u /\ occurs (quoted_src u) html /\ https_script u /\ occurs "sndcdn.com" u.
Proof.
  unfold getClientId_at. destruct (cache_valid w now); [now left|].
  unfold scrape, bind, fetch, text, ret, throw.
  destruct (upstream e (requests w) homepage) as [r|] eqn:U.
  - destruct (res_text r) as [html|] eqn:T.
    + intros I. apply try_scripts_requests in I.
      destruct I as [[<-|I]|(u & -> & I & C)]; [now right; left|now left|].
      right; right. exists r, html, u.
      destruct (script_srcs_from_sound html 0 u I) as [O S].
      repeat split; auto; try apply S. now apply includes_occurs.
    + simpl. intros [<-|I]; [now right; left|now left].
  - simpl. intros [<-|I]; [now right; left|now left].
Qed.

Lemma getClientId_requests_only_cdn_scripts_witness :
  occurs "sndcdn.com" demo_script_url /\ https_script demo_script_url.
Proof.
  destruct (getClientId_requests_only_cdn_scripts 0 scrape_env initial_world
              (Url demo_script_url) (or_introl eq_refl))
    as [[]|[H|(r & html & u & _ & _ & E & _ & S & O)]].
  - discriminate H.
  - inversion E; subst u. split; [exact O|exact S].
Defined.

(** ** [parseInt] and the decimal rendering *)

Lemma parse_digits_acc (d : Decimal.uint) (a : positive) :
  parse_digits 10 (Some (Zpos a)) (NilEmpty.string_of_uint d)
  = Some (Zpos (Pos.of_uint_acc d a)).
Proof.
  revert a. induction d; intros a; cbn [NilEmpty.string_of_uint parse_digits Pos.of_uint_acc];
    try reflexivity;
    match goal with
    | |- context [digit_value 10 ?c] =>
        let v := eval vm_compute in (digit_value 10 c) in
        change (digit_value 10 c) with v; cbv iota
    end;
    rewrite <- IHd; do 2 f_equal; lia.
Qed.

Lemma parse_digits_zero (d : Decimal.uint) :
  parse_digits 10 (Some 0) (NilEmpty.string_of_uint d) = Some (Z.of_N (Pos.of_uint d)).
Proof.
  induction d; cbn [NilEmpty.string_of_uint parse_digits Pos.of_uint];
    try reflexivity;
    match goal with
    | |- context [digit_value 10 ?c] =>
        let v := eval vm_compute in (digit_value 10 c) in
        change (digit_value 10 c) with v; cbv iota
    end;
    first [exact IHd | apply parse_digits_acc].
Qed.

Lemma parse_digits_start (d : Decimal.uint) :
  d <> Decimal.Nil ->
  parse_digits 10 None (NilEmpty.string_of_uint d) = Some (Z.of_N (Pos.of_uint d)).
Proof.
  destruct d; intros N; [contradiction| | | | | | | | | | ];
    cbn [NilEmpty.string_of_uint parse_digits Pos.of_uint];
    match goal with
    | |- context [digit_value 10 ?c] =>
        let v := eval vm_compute in (digit_value 10 c) in
        change (digit_value 10 c) with v; cbv iota
    end;
    first [apply parse_digits_zero | apply parse_digits_acc].
Qed.

Lemma parseInt_unsigned (d : Decimal.uint) :
  d <> Decimal.Nil ->
  parseInt (NilEmpty.string_of_uint d)
  = match parse_digits 10 None (NilEmpty.string_of_uint d) with
    | Some n => Some n
    | None => None
    end.
Proof.
  destruct d as [|l|l|l|l|l|l|l|l|l|l]; intros N; [contradiction|..];
    destruct l; reflexivity.
Qed.

Lemma parseInt_negative (d : Decimal.uint) :
  d <> Decimal.Nil ->
  parseInt (String "-" (NilEmpty.string_of_uint d))
  = match parse_digits 10 None (NilEmpty.string_of_uint d) with
    | Some n => Some (- n)
    | None => None
    end.
Proof.
  destruct d as [|l|l|l|l|l|l|l|l|l|l]; intros N; [contradiction|..];
    destruct l; reflexivity.
Qed.

Lemma parseInt_string_of_Z (n : Z) : parseInt (string_of_Z n) = Some n.
Proof.
  destruct n as [|p|p]; [reflexivity| |]; unfold string_of_Z; simpl.
  - rewrite parseInt_unsigned, parse_digits_start by apply DecimalPos.Unsigned.to_uint_nonnil.
    rewrite DecimalPos.Unsigned.of_to. reflexivity.
  - rewrite parseInt_negative, parse_digits_start by apply DecimalPos.Unsigned.to_uint_nonnil.
    rewrite DecimalPos.Unsigned.of_to. reflexivity.
Qed.

(** X8.  Reading back with [parseInt] the text [toString] gives for a number
    returns that number, for [NaN] and for every integer up to 2^53 in
    absolute value (the range in which the engine's numbers are exact). *)
Theorem parseInt_number_to_string (v : option Z) :
  safe_number v -> parseInt (number_to_string v) = v.
Proof. intros _. destruct v as [n|]; [apply parseInt_string_of_Z|reflexivity]. Qed.

Lemma parseInt_number_to_string_witness :
  parseInt (number_to_string (Some (- 9007199254740992))) = Some (- 9007199254740992).
Proof.
  apply (parseInt_number_to_string (Some (- 9007199254740992))). simpl. lia.
Defined.

(** ** The transcoding that [getStreamUrl] exchanges *)

Lemma get_ok (v r : value) (k : string) :
  get v k = Ok r -> r = get_opt v k /\ not_null v.
Proof. destruct v; simpl; intros E; inversion E; split; reflexivity. Qed.

Lemma get_throw (v : value) (k : string) (x : exn) :
  get v k = Throw x -> x = NullishRead k.
Proof. destruct v; simpl; intros E; inversion E; reflexivity. Qed.

Lemma find_result_progressive_ok (items : list value) (found : value) :
  find_result is_progressive items = Ok found ->
  found = VUndef \/ (In found items /\ progressive found = true).
Proof.
  induction items as [|t items IH]; simpl.
  - intros E; inversion E. now left.
  - unfold is_progressive at 1, bind_result.
    destruct (get t "format") as [f|x] eqn:G; [|discriminate].
    apply get_ok in G. destruct G as [-> _].
    fold (progressive t). destruct (progressive t) eqn:P.
    + intros E; inversion E; subst. right. split; [now left|exact P].
    + intros E. destruct (IH E) as [U|[I Q]]; [now left|right]. split; [now right|exact Q].
Qed.

Lemma find_result_progressive_throw (items : list value) (x : exn) :
  find_result is_progressive items = Throw x -> x = NullishRead "format".
Proof.
  induction items as [|t items IH]; simpl; [discriminate|].
  unfold is_progressive at 1, bind_result.
  destruct (get t "format") as [f|y] eqn:G.
  - destruct (is_str (get_opt f "protocol") "progressive"); [discriminate|exact IH].
  - intros E; inversion E; subst. now apply get_throw in G.
Qed.

(** X9.  Whatever JSON the track is: when the choice of a transcoding
    succeeds, the transcoding is an entry of [track.media.transcodings] whose
    [url] is truthy, and it is progressive or the first entry; when it fails,
    it fails with one of two messages of the program or with a TypeError for
    a [null] track, a [null] entry, or a [transcodings] that is not an
    array. *)
Theorem track_transcoding_sound (track : value) :
  (forall t, track_transcoding track = Ok t ->
     exists items,
       get_opt (get_opt track "media") "transcodings" = VArr items /\
       In t items /\ usable t = true /\
       (progressive t = true \/ hd_error items = Some t)) /\
  (forall x, track_transcoding track = Throw x -> transcoding_failure x).
Proof.
  unfold track_transcoding, bind_result, transcoding_failure.
  destruct (get track "media") as [media|y] eqn:G.
  2:{ split; [discriminate|]. intros x E; inversion E; subst.
      apply get_throw in G. tauto. }
  apply get_ok in G. destruct G as [-> _].
  destruct (truthy (get_opt (get_opt track "media") "transcodings")) eqn:T; simpl.
  2:{ split; [discriminate|]. intros x E; inversion E. tauto. }
  destruct (get_opt (get_opt track "media") "transcodings") as [| |b|n|s|items|fields];
    simpl; try (split; [discriminate|intros x E; inversion E; tauto]).
  unfold bind_result.
  destruct (find_result is_progressive items) as [found|y] eqn:F.
  2:{ split; [discriminate|]. intros x E; inversion E; subst.
      apply find_result_progressive_throw in F. tauto. }
  apply find_result_progressive_ok in F.
  destruct (truthy found) eqn:TF; simpl.
  - destruct F as [->|[I P]]; [discriminate|].
    destruct (truthy (get_opt found "url")) eqn:U; simpl.
    + split; [|discriminate]. intros t E; inversion E; subst.
      exists items. repeat split; auto.
    + split; [discriminate|]. intros x E; inversion E. tauto.
  - destruct (truthy (get_opt (nth 0 items VUndef) "url")) eqn:U; simpl.
    + split; [|discriminate]. intros t E; inversion E; subst.
      exists items. destruct items as [|t0 items]; [discriminate|]. simpl in *.
      repeat split; auto.
    + split; [discriminate|]. intros x E; inversion E. tauto.
Qed.

Lemma track_transcoding_sound_witness :
  exists items,
    get_opt (get_opt stream_track "media") "transcodings" = VArr items /\
    In progressive_variant items /\ usable progressive_variant = true.
Proof.
  destruct (track_transcoding_sound stream_track) as [sound _].
  destruct (sound progressive_variant eq_refl) as (items & E & I & U & _).
  exists items. repeat split; assumption.
Defined.

(** ** A stream request served from the cache *)

Lemma cache_valid_log (t : target) (w : world) (now : Z) :
  cache_valid (log t w) now = cache_valid w now.
Proof. reflexivity. Qed.

Lemma track_transcoding_not_null (track t : value) :
  track_transcoding track = Ok t -> not_null track.
Proof.
  unfold track_transcoding, bind_result.
  destruct (get track "media") eqn:G; [|discriminate]. intros _. now apply get_ok in G.
Qed.

(** X10.  With a credential [c] valid in the cache throughout, a stream
    request whose track resolves and has a usable transcoding sends exactly
    two requests, the resolve request and the exchange of the transcoding's
    [url] followed by [?client_id=c], both with the same credential, and
    scrapes nothing; a non-2xx answer to the exchange gives [Stream URL fetch
    error: <status>], and a 2xx JSON answer gives the link with the track
    stripped of its [media]. *)
Theorem stream_with_cached_credential
    (url : string) (e : env) (w : world) (c : string) (r1 : response)
    (track t : value) (link : string) :
  cache_valid w (clock e (requests w)) = Some c ->
  upstream e (requests w) (resolve_request url c) = Some r1 ->
  res_ok r1 = true ->
  res_json r1 = Some track ->
  track_transcoding track = Ok t ->
  to_string (get_opt t "url") = Ok link ->
  cache_valid w (clock e (resolve_request url c :: requests w)) = Some c ->
  snd (getStreamUrl url e w)
    = log (exchange_request link c) (log (resolve_request url c) w) /\
  (forall r2,
      upstream e (resolve_request url c :: requests w) (exchange_request link c) = Some r2 ->
      (res_ok r2 = false ->
       fst (getStreamUrl url e w)
         = Throw (Error ("Stream URL fetch error: " ++ string_of_Z (res_status r2)))) /\
      (forall data, res_ok r2 = true -> res_json r2 = Some data -> not_null data ->
       fst (getStreamUrl url e w) = Ok (stream_result data track))).
Proof.
  intros V1 U1 K1 J1 T L V2.
  assert (G1 : getClientId e w = (Ok c, w)).
  { unfold getClientId, getClientId_at. rewrite V1. reflexivity. }
  assert (R : resolveUrl url e w = (Ok track, log (resolve_request url c) w)).
  { rewrite (resolveUrl_after_credential url e w w c G1), U1, K1, J1. reflexivity. }
  assert (G2 : getClientId e (log (resolve_request url c) w)
               = (Ok c, log (resolve_request url c) w)).
  { unfold getClientId, getClientId_at. simpl requests. rewrite cache_valid_log, V2.
    reflexivity. }
  pose proof (track_transcoding_not_null track t T) as N.
  set (W := log (exchange_request link c) (log (resolve_request url c) w)).
  assert (S : getStreamUrl url e w =
              match upstream e (resolve_request url c :: requests w)
                      (exchange_request link c) with
              | Some r2 =>
                  if res_ok r2 then
                    match res_json r2 with
                    | Some data =>
                        (su <~ get data "url" ;;
                         Ok (VObj [("url", su);
                                   ("track", get_opt (stream_result VNull track) "track")]),
                         W)
                    | None => (Throw JsonSyntaxError, W)
                    end
                  else (Throw (Error ("Stream URL fetch error: "
                                      ++ string_of_Z (res_status r2))), W)
              | None => (Throw FetchRejected, W)
              end).
  { unfold getStreamUrl, bind. rewrite R. unfold lift at 1. rewrite T, G2.
    unfold lift at 1. rewrite L.
    unfold fetch, exchange_request. simpl requests.
    destruct (upstream e (resolve_request url c :: requests w)
                (Url (link ++ "?client_id=" ++ c))) as [r2|]; [|reflexivity].
    destruct (res_ok r2); simpl; [|reflexivity].
    unfold json. destruct (res_json r2) as [data|]; [|reflexivity].
    unfold ret at 1, lift, user_of, bind_result.
    rewrite !(get_not_null track _ N).
    destruct (get data "url"); reflexivity. }
  rewrite S. clear S.
  destruct (upstream e (resolve_request url c :: requests w) (exchange_request link c))
    as [r2|].
  - split.
    + destruct (res_ok r2); [destruct (res_json r2)|]; reflexivity.
    + intros r2' E; inversion E; subst r2'. split.
      * intros ->. reflexivity.
      * intros data -> -> ND. simpl. rewrite (get_not_null data _ ND). reflexivity.
  - split; [reflexivity|]. intros r2 E; discriminate.
Qed.

Lemma stream_with_cached_credential_witness :
  let warm := store demo_token 3600000 initial_world in
  snd (getStreamUrl "https://soundcloud.com/a/night-drive" stream_env warm)
  = log (exchange_request "https://api-v2.soundcloud.com/media/7/stream/progressive" demo_token)
      (log (resolve_request "https://soundcloud.com/a/night-drive" demo_token) warm).
Proof.
  apply (stream_with_cached_credential
           "https://soundcloud.com/a/night-drive" stream_env
           (store demo_token 3600000 initial_world) demo_token
           (api_response 200 stream_track) stream_track progressive_variant
           "https://api-v2.soundcloud.com/media/7/stream/progressive");
    reflexivity.
Defined.

(** ** [/search] at the boundary *)

Lemma worker_search (req : request) (e : env) (w : world) (q : string) :
  method req <> "OPTIONS" ->
  pathname req = "/search" ->
  present (searchParams_get "q" (searchParams req)) = Some q ->
  worker_fetch req e w =
    match searchTracks q (parseInt (limit_text req)) e w with
    | (Ok tracks, w') => (respond 200 (VObj [("tracks", tracks)]), w')
    | (Throw x, w') => (error_response 500 (exn_message x), w')
    end.
Proof.
  intros Hm P Q. unfold worker_fetch.
  destruct (String.eqb_spec (method req) "OPTIONS"); [contradiction|].
  unfold route. rewrite P; simpl. rewrite Q. fold (limit_text req).
  unfold bind, ret. destruct (searchTracks q _ e w) as [[tracks|x] w']; reflexivity.
Qed.

Lemma searchTracks_log (q : string) (limit : option Z) (e : env) (w w1 : world) (c : string) :
  getClientId e w = (Ok c, w1) ->
  snd (searchTracks q limit e w) = log (search_request q c limit) w1.
Proof.
  intros G. rewrite (searchTracks_after_credential q limit e w w1 c G).
  destruct (upstream e (requests w1) _) as [r|]; [|reflexivity].
  destruct (res_ok r); [destruct (res_json r)|]; reflexivity.
Qed.

(** X11.  A [/search] request (method other than OPTIONS, [q] present)
    whose credential is available, and whose [limit] reads as [NaN] or as an
    integer up to 2^53 in absolute value, sends the API exactly one request,
    with [q] as given and with [limit] being [parseInt] of the parameter, or
    of [4] when the parameter is missing or empty: so the text sent is [NaN]
    for a parameter that does not start with a number, and otherwise the
    canonical decimal of the number read, which reads back as itself. *)
Theorem search_forwards_limit
    (req : request) (e : env) (w w1 : world) (q c : string) :
  method req <> "OPTIONS" ->
  pathname req = "/search" ->
  present (searchParams_get "q" (searchParams req)) = Some q ->
  safe_number (parseInt (limit_text req)) ->
  getClientId e w = (Ok c, w1) ->
  let limit := parseInt (limit_text req) in
  requests (snd (worker_fetch req e w)) = search_request q c limit :: requests w1 /\
  (present (searchParams_get "limit" (searchParams req)) = None -> limit = Some 4) /\
  (limit = None -> In ("limit", "NaN") (match search_request q c limit with
                                        | Query _ params => params
                                        | Url _ => []
                                        end)) /\
  parseInt (number_to_string limit) = limit.
Proof.
  intros Hm P Q _ G limit.
  split; [|split; [|split]].
  - rewrite (worker_search req e w q Hm P Q). fold limit.
    pose proof (searchTracks_log q limit e w w1 c G) as S.
    destruct (searchTracks q limit e w) as [[tracks|x] w']; simpl in *; subst w'; reflexivity.
  - intros N. unfold limit, limit_text. rewrite N. reflexivity.
  - intros ->. simpl. right; right; left. reflexivity.
  - destruct limit as [n|]; [apply parseInt_string_of_Z|reflexivity].
Qed.

Lemma search_forwards_limit_witness :
  requests (snd (worker_fetch
                   {| method := "GET"; pathname := "/search";
                      searchParams := [("q", "lofi"); ("limit", " 007 tracks")] |}
                   lofi_env (store demo_token 3600000 initial_world)))
  = [search_request "lofi" demo_token (Some 7)].
Proof.
  apply (search_forwards_limit
           {| method := "GET"; pathname := "/search";
              searchParams := [("q", "lofi"); ("limit", " 007 tracks")] |}
           lofi_env (store demo_token 3600000 initial_world)
           (store demo_token 3600000 initial_world) "lofi" demo_token);
    [discriminate | reflexivity | reflexivity | simpl; lia | reflexivity].
Defined.

(** X12.  For a [/search] request (method other than OPTIONS, [q] present,
    [limit] within the range where its text is exact) whose credential is
    available: an upstream status outside 200..299 is answered 500 with
    [SoundCloud API error: <status>]; a 2xx answer that is JSON without a
    [collection] is answered 200 with an empty list of tracks; a 2xx answer
    that is the JSON [null], or whose [collection] holds a [null], is
    answered 500 with an [error] body (the property read on it throws, and
    the message is the engine's). *)
Theorem worker_search_upstream_status
    (req : request) (e : env) (w w1 : world) (q c : string) (r : response) :
  method req <> "OPTIONS" ->
  pathname req = "/search" ->
  present (searchParams_get "q" (searchParams req)) = Some q ->
  safe_number (parseInt (limit_text req)) ->
  getClientId e w = (Ok c, w1) ->
  upstream e (requests w1) (search_request q c (parseInt (limit_text req))) = Some r ->
  (res_ok r = false ->
   fst (worker_fetch req e w)
     = error_response 500 ("SoundCloud API error: " ++ string_of_Z (res_status r))) /\
  (forall data, res_ok r = true -> res_json r = Some data ->
     (not_null data -> truthy (get_opt data "collection") = false ->
      fst (worker_fetch req e w) = respond 200 (VObj [("tracks", VArr [])])) /\
     (data = VNull ->
      exists msg, fst (worker_fetch req e w) = error_response 500 msg) /\
     (forall before after,
        get_opt data "collection" = VArr (before ++ VNull :: after) ->
        Forall not_null before ->
        exists msg, fst (worker_fetch req e w) = error_response 500 msg)).
Proof.
  intros Hm P Q _ G U.
  rewrite (worker_search req e w q Hm P Q).
  rewrite (searchTracks_after_credential q _ e w w1 c G), U.
  split.
  - intros ->. reflexivity.
  - intros data -> ->. split; [|split].
    + intros N F. rewrite (simplify_tracks_no_collection data N F). reflexivity.
    + intros ->. eexists. reflexivity.
    + intros before after C B. eexists.
      assert (N : not_null data) by (destruct data; try discriminate; reflexivity).
      unfold simplify_tracks. rewrite (get_not_null data _ N), C. simpl.
      assert (M : map_result simplify_track (before ++ VNull :: after)
                  = Throw (NullishRead "id")).
      { clear C. induction B as [|t before Ht _ IH]; [reflexivity|].
        simpl. rewrite (simplify_track_not_null t Ht). simpl. rewrite IH. reflexivity. }
      rewrite M. reflexivity.
Qed.

Lemma worker_search_upstream_status_witness :
  fst (worker_fetch {| method := "GET"; pathname := "/search"; searchParams := [("q", "x")] |}
         always_404 (store demo_token 3600000 initial_world))
  = error_response 500 "SoundCloud API error: 404".
Proof.
  apply (worker_search_upstream_status
           {| method := "GET"; pathname := "/search"; searchParams := [("q", "x")] |}
           always_404 (store demo_token 3600000 initial_world)
           (store demo_token 3600000 initial_world) "x" demo_token
           (api_response 404 (VObj [])));
    [discriminate | reflexivity | reflexivity | simpl; lia | reflexivity | reflexivity
    | reflexivity].
Defined.

(** ** The cache under interleaving *)

Lemma next_script_fields (now : Z) (urls : list string) (w : world) :
  cachedClientId (snd (next_script now urls w)) = cachedClientId w /\
  clientIdExpiry (snd (next_script now urls w)) = clientIdExpiry w /\
  (forall n, started (fst (next_script now urls w)) = Some n -> n = now).
Proof.
  induction urls as [|u urls IH]; simpl.
  - repeat split. discriminate.
  - destruct (includes "sndcdn.com" u); [|exact IH].
    simpl. repeat split. intros n E; inversion E; reflexivity.
Qed.

Lemma resume_fields (c : call_state) (got : option string) (w : world) :
  let c' := fst (resume c got w) in
  let w' := snd (resume c got w) in
  (cache_wf w -> cache_wf w') /\
  (cachedClientId w <> None -> cachedClientId w' <> None) /\
  (forall n, started c' = Some n -> started c = Some n) /\
  (clientIdExpiry w' = clientIdExpiry w \/
   exists n, started c = Some n /\ clientIdExpiry w' = n + ttl).
Proof.
  assert (Same : forall now urls,
             (cache_wf w -> cache_wf (snd (next_script now urls w))) /\
             (cachedClientId w <> None -> cachedClientId (snd (next_script now urls w)) <> None) /\
             (forall n, started (fst (next_script now urls w)) = Some n -> Some now = Some n) /\
             (clientIdExpiry (snd (next_script now urls w)) = clientIdExpiry w \/
              exists n, Some now = Some n /\
                        clientIdExpiry (snd (next_script now urls w)) = n + ttl)).
  { intros now urls. destruct (next_script_fields now urls w) as (C & X & N).
    split; [unfold cache_wf; rewrite C; auto|].
    split; [rewrite C; auto|].
    split; [intros n E; f_equal; symmetry; now apply N|].
    left. exact X. }
  destruct c as [now|now rest|r]; simpl.
  - destruct got as [html|]; [apply Same|]. simpl.
    split; [auto|]. split; [auto|]. split; [intros n E; discriminate E|now left].
  - destruct got as [content|]; [|apply Same].
    destruct (client_id_match content) as [tok|] eqn:M; [|apply Same].
    simpl. split; [|split; [|split]].
    + intros _ c' E. inversion E; subst. now apply client_id_match_shape with (s := content).
    + discriminate.
    + intros n E; discriminate E.
    + right. exists now. split; reflexivity.
  - split; [auto|]. split; [auto|]. split; [auto|now left].
Qed.

Lemma in_set_nth {A} (l : list A) (i : nat) (x y : A) :
  In y (set_nth i x l) -> y = x \/ In y l.
Proof.
  revert i. induction l as [|a l IH]; intros i; destruct i as [|i]; simpl; try tauto.
  - intros [<-|I]; auto.
  - intros [<-|I]; auto. destruct (IH i I); auto.
Qed.

Lemma step_fields (x0 : Z) (times : list Z) (p : pool) (ev : event) :
  let p' := step p ev in
  (cache_wf (module p) -> cache_wf (module p')) /\
  (cachedClientId (module p) <> None -> cachedClientId (module p') <> None) /\
  (expiry_from x0 times p -> expiry_from x0 (times ++ call_times [ev]) p').
Proof.
  destruct ev as [now|i got]; simpl.
  - assert (Grow : forall (w' : world) (c0 : call_state),
               clientIdExpiry w' = clientIdExpiry (module p) ->
               (forall n, started c0 = Some n -> n = now) ->
               expiry_from x0 times p ->
               expiry_from x0 (times ++ [now]) {| module := w'; calls := calls p ++ [c0] |}).
    { intros w' c0 X N [S E]. split; simpl.
      - intros c n I St. apply in_or_app. apply in_app_or in I.
        destruct I as [I|[<-|[]]].
        + left. now apply (S c n).
        + right. left. symmetry. now apply N.
      - rewrite X. destruct E as [E|(n & I & E)]; [now left|].
        right. exists n. split; [apply in_or_app; now left|exact E]. }
    destruct (cache_valid (module p) now); simpl.
    + split; [auto|]. split; [auto|]. apply Grow; [reflexivity|discriminate].
    + split; [auto|]. split; [auto|]. apply Grow; [reflexivity|].
      intros n E; inversion E; reflexivity.
  - destruct (nth_error (calls p) i) as [c|] eqn:N.
    + pose proof (resume_fields c got (module p)) as R.
      destruct (resume c got (module p)) as [c' w']. simpl in *.
      destruct R as (Wf & Keep & St & Ex).
      split; [exact Wf|]. split; [exact Keep|].
      rewrite app_nil_r. intros [S X]. apply nth_error_In in N. split.
      * intros d n I E. apply in_set_nth in I. destruct I as [->|I].
        -- apply (S c n N). now apply St.
        -- now apply (S d n I).
      * simpl. destruct Ex as [Ex|(n & E & Ex)].
        -- rewrite Ex. exact X.
        -- right. exists n. split; [now apply (S c n N)|exact Ex].
    + rewrite app_nil_r. auto.
Qed.

Lemma run_fields (x0 : Z) (evs : list event) (times : list Z) (p : pool) :
  (cache_wf (module p) -> cache_wf (module (run evs p))) /\
  (cachedClientId (module p) <> None -> cachedClientId (module (run evs p)) <> None) /\
  (expiry_from x0 times p -> expiry_from x0 (times ++ call_times evs) (run evs p)).
Proof.
  revert times p. induction evs as [|ev evs IH]; intros times p.
  - simpl. rewrite app_nil_r. auto.
  - simpl run. destruct (step_fields x0 times p ev) as (A & B & C).
    destruct (IH (times ++ call_times [ev])%list (step p ev)) as (A' & B' & C').
    split; [auto|]. split; [auto|].
    intros E. specialize (C' (C E)).
    assert (E2 : call_times (ev :: evs) = (call_times [ev] ++ call_times evs)%list)
      by (unfold call_times; simpl; now rewrite app_nil_r).
    rewrite E2, app_assoc. exact C'.
Qed.

(** X13.  However calls of [getClientId] are interleaved and whatever they
    are handed: the cache never holds anything but a token of 32
    alphanumeric characters, a credential once cached is never cleared, and
    the expiry is the initial one or one hour after the clock reading at
    which one of the calls started (not after the moment it finished). *)
Theorem interleaving_keeps_cache (evs : list event) (w : world) :
  cache_wf w ->
  let w' := module (run evs {| module := w; calls := [] |}) in
  cache_wf w' /\
  (cachedClientId w <> None -> cachedClientId w' <> None) /\
  (clientIdExpiry w' = clientIdExpiry w \/
   exists now, In (Call now) evs /\ clientIdExpiry w' = now + 3600000).
Proof.
  intros Wf.
  destruct (run_fields (clientIdExpiry w) evs [] {| module := w; calls := [] |})
    as (A & B & C).
  split; [now apply A|]. split; [exact B|].
  destruct C as [_ [X|(now & I & X)]].
  - split; [intros c n []|now left].
  - now left.
  - right. exists now. split; [|exact X].
    simpl in I. unfold call_times in I. apply in_flat_map in I.
    destruct I as (ev & I & H). destruct ev as [n|i got]; [|contradiction].
    destruct H as [<-|[]]. exact I.
Qed.

Lemma interleaving_keeps_cache_witness :
  clientIdExpiry (module (run two_callers idle_pool)) = 1 + 3600000.
Proof.
  destruct (interleaving_keeps_cache two_callers initial_world)
    as (_ & _ & [X|(now & I & X)]).
  - intros c E. discriminate E.
  - discriminate X.
  - reflexivity.
Defined.

(** * Further properties of the Express endpoints *)

Lemma all_chars_impl (p q : ascii -> bool) (s : string) :
  (forall c, p c = true -> q c = true) -> all_chars p s = true -> all_chars q s = true.
Proof.
  intros I. induction s as [|c s IH]; simpl; [reflexivity|].
  intros H. apply andb_true_iff in H. destruct H as [Hc Hs].
  rewrite (I c Hc), (IH Hs). reflexivity.
Qed.

Lemma strip_kept (s : string) : all_chars Express.kept (Express.strip s) = true.
Proof.
  induction s as [|c s IH]; simpl; [reflexivity|].
  destruct (Express.kept c) eqn:K; [simpl; rewrite K|]; exact IH.
Qed.

Lemma strip_of_kept (s : string) : all_chars Express.kept s = true -> Express.strip s = s.
Proof.
  induction s as [|c s IH]; simpl; [reflexivity|].
  intros H. apply andb_true_iff in H. destruct H as [Hc Hs]. rewrite Hc, (IH Hs). reflexivity.
Qed.

Lemma substring_head_length (n : nat) (s : string) :
  (String.length (substring 0 n s) <= n)%nat.
Proof.
  revert s. induction n as [|n IH]; intros s; destruct s as [|c s]; simpl; try lia.
  specialize (IH s). lia.
Qed.

Lemma substring_head_all (p : ascii -> bool) (n : nat) (s : string) :
  all_chars p s = true -> all_chars p (substring 0 n s) = true.
Proof.
  revert s. induction n as [|n IH]; intros s; destruct s as [|c s]; simpl; try reflexivity.
  intros H. apply andb_true_iff in H. destruct H as [Hc Hs]. rewrite Hc. now apply IH.
Qed.

Lemma substring_head_twice (n : nat) (s : string) :
  substring 0 n (substring 0 n s) = substring 0 n s.
Proof.
  revert s. induction n as [|n IH]; intros s; destruct s as [|c s]; simpl; try reflexivity.
  now rewrite IH.
Qed.

Lemma kept_name_safe (c : ascii) : Express.kept c = true -> name_safe c = true.
Proof.
  destruct c as [b0 b1 b2 b3 b4 b5 b6 b7].
  destruct b0, b1, b2, b3, b4, b5, b6, b7; vm_compute; intros H;
    first [reflexivity | discriminate H].
Qed.

(** X14.  The title put in the file name of a streamed download has at most
    50 characters, each a letter, digit, underscore, white space or hyphen, so
    it holds no double quote, slash, backslash or semicolon; and a title that
    already went through the cleaning comes out unchanged. *)
Theorem file_title_safe (title : string) :
  (String.length (Express.file_title title) <= 50)%nat /\
  all_chars Express.kept (Express.file_title title) = true /\
  all_chars name_safe (Express.file_title title) = true /\
  Express.file_title (Express.file_title title) = Express.file_title title.
Proof.
  unfold Express.file_title.
  assert (K : all_chars Express.kept (substring 0 50 (Express.strip title)) = true)
    by (apply substring_head_all, strip_kept).
  split; [apply substring_head_length|]. split; [exact K|]. split.
  - exact (all_chars_impl _ _ _ kept_name_safe K).
  - rewrite (strip_of_kept _ K). apply substring_head_twice.
Qed.

Lemma present_some (o : option string) (s : string) :
  present o = Some s -> o = Some s /\ s <> "".
Proof.
  destruct o as [t|]; simpl; [|discriminate].
  destruct (String.eqb_spec t ""); [discriminate|].
  intros E; inversion E; subst. split; [reflexivity|assumption].
Qed.

(** X15.  [/youtube/video] answers 200, 400, 404 or 500 and nothing else;
    400 exactly when [url] is missing or empty; a 200 reply always carries
    [success: true] and a direct [url] that is a non-empty string; every
    other reply is an object with the single field [error]. *)
Theorem youtube_video_reply_shape
    (chooseFormat : YouTube.chooser) (getInfo : string -> result YouTube.videoInfo)
    (q_url q_quality : option string) :
  let r := YouTube.youtube_video chooseFormat getInfo q_url q_quality in
  (YouTube.code r = 200 \/ YouTube.code r = 400 \/ YouTube.code r = 404 \/
   YouTube.code r = 500) /\
  (YouTube.code r = 400 <-> present q_url = None) /\
  (YouTube.code r = 200 ->
   exists direct, direct <> "" /\
                  get_opt (YouTube.payload r) "url" = VStr direct /\
                  get_opt (YouTube.payload r) "success" = VBool true) /\
  (YouTube.code r <> 200 -> exists msg, YouTube.payload r = VObj [("error", VStr msg)]).
Proof.
  unfold YouTube.youtube_video.
  destruct (present q_url) as [u|] eqn:U.
  2:{ simpl. repeat split; auto; try discriminate. eexists; reflexivity. }
  unfold bind_result.
  destruct (getInfo u) as [info|x].
  2:{ simpl. split; [auto|]. split; [split; discriminate|].
      split; [discriminate|]. intros _. eexists; reflexivity. }
  destruct (YouTube.choose_video chooseFormat _ (YouTube.formats info)) as [f|x].
  2:{ simpl. split; [auto|]. split; [split; discriminate|].
      split; [discriminate|]. intros _. eexists; reflexivity. }
  destruct (present (YouTube.url f)) as [direct|] eqn:D.
  2:{ simpl. split; [auto|]. split; [split; discriminate|].
      split; [discriminate|]. intros _. eexists; reflexivity. }
  apply present_some in D. destruct D as [_ D].
  cbn [YouTube.code YouTube.payload]. split; [auto|]. split; [split; discriminate|].
  split; [|intros C; contradiction].
  intros _. exists direct. split; [exact D|]. split; reflexivity.
Qed.




(** ** A stream request that finds no transcoding *)

Lemma worker_stream (req : request) (e : env) (w : world) (u : string) :
  method req <> "OPTIONS" ->
  pathname req = "/stream" ->
  present (searchParams_get "url" (searchParams req)) = Some u ->
  worker_fetch req e w =
    match getStreamUrl u e w with
    | (Ok stream, w') => (respond 200 stream, w')
    | (Throw x, w') => (error_response 500 (exn_message x), w')
    end.
Proof.
  intros Hm P Q. unfold worker_fetch.
  destruct (String.eqb_spec (method req) "OPTIONS"); [contradiction|].
  unfold route. rewrite P; simpl. rewrite Q.
  unfold bind, ret. destruct (getStreamUrl u e w) as [[stream|x] w']; reflexivity.
Qed.

(** X17.  A [/stream] request (method other than OPTIONS, [url] present)
    whose track resolves but for which the choice of a transcoding throws is
    answered 500 with an [error] body (not 404), and stops there: after the
    resolve request nothing more is sent, neither a second read of the
    credential nor an exchange.  When the exception is one the program
    throws itself ([No transcodings available], [No transcoding URL found])
    the body carries its message; for a TypeError the message is the
    engine's. *)
Theorem worker_stream_without_transcoding
    (req : request) (e : env) (w w1 : world) (u c : string) (r : response)
    (track : value) (x : exn) :
  method req <> "OPTIONS" ->
  pathname req = "/stream" ->
  present (searchParams_get "url" (searchParams req)) = Some u ->
  getClientId e w = (Ok c, w1) ->
  upstream e (requests w1) (resolve_request u c) = Some r ->
  res_ok r = true ->
  res_json r = Some track ->
  track_transcoding track = Throw x ->
  exists msg,
    worker_fetch req e w = (error_response 500 msg, log (resolve_request u c) w1) /\
    (forall m, x = Error m -> msg = m).
Proof.
  intros Hm P Q G U K J T.
  exists (exn_message x). split; [|intros m ->; reflexivity].
  rewrite (worker_stream req e w u Hm P Q).
  unfold getStreamUrl, bind.
  rewrite (resolveUrl_after_credential u e w w1 c G), U, K, J.
  unfold lift. rewrite T. reflexivity.
Qed.

Lemma worker_stream_without_transcoding_witness :
  worker_fetch {| method := "GET"; pathname := "/stream"; searchParams := [("url", "x")] |}
    scrape_env (store demo_token 3600000 initial_world)
  = (error_response 500 "No transcodings available",
     log (resolve_request "x" demo_token) (store demo_token 3600000 initial_world)).
Proof.
  destruct (worker_stream_without_transcoding
              {| method := "GET"; pathname := "/stream"; searchParams := [("url", "x")] |}
              scrape_env (store demo_token 3600000 initial_world)
              (store demo_token 3600000 initial_world) "x" demo_token
              (api_response 200 demo_track) demo_track (Error "No transcodings available")
              ltac:(discriminate) eq_refl eq_refl eq_refl eq_refl eq_refl eq_refl eq_refl)
    as (msg & E & M).
  rewrite E, (M _ eq_refl). reflexivity.
Defined.

(** ** The token pattern, both ways *)

(** X19.  [scriptContent.match] on the token pattern returns a token exactly
    when it is the token of the leftmost place of the script where the shape
    holds (the key [client_id], white space, [:] or [=], white space, a
    quote, 32 alphanumeric characters, a quote), and returns [null] exactly
    when the shape holds nowhere in the script. *)
Theorem client_id_match_complete (s : string) :
  (forall c, client_id_match s = Some c <-> first_token s c) /\
  (client_id_match s = None <->
   forall pre rest c, s = pre ++ rest -> ~ token_at rest c).
Proof.
  split; [intros c; apply client_id_match_first|].
  induction s as [|a s IH].
  - simpl. split; [|reflexivity].
    intros _ pre rest c E T. destruct pre; [|discriminate]. simpl in E. subst rest.
    apply client_id_here_token in T. discriminate.
  - change (client_id_match (String a s)) with
      (match client_id_here (String a s) with
       | Some tok => Some tok
       | None => client_id_match s
       end).
    destruct (client_id_here (String a s)) as [tok|] eqn:H.
    + split; [discriminate|]. intros N. exfalso.
      apply (N "" (String a s) tok); [reflexivity|now apply client_id_here_token].
    + rewrite IH. split.
      * intros N pre rest c E T. destruct pre as [|b pre].
        -- simpl in E. subst rest. apply client_id_here_token in T. congruence.
        -- simpl in E. inversion E; subst. now apply (N pre rest c).
      * intros N pre rest c -> T. now apply (N (String a pre) rest c).
Qed.

(** ** Instances of the status properties *)

Lemma worker_status_meaning_witness : ~ recognized "/youtube/video".
Proof.
  destruct (worker_status_meaning
              {| method := "GET"; pathname := "/youtube/video"; searchParams := [] |}
              silent_env initial_world) as (_ & _ & unknown & _).
  exact (unknown eq_refl).
Defined.

Lemma youtube_video_reply_shape_witness :
  exists direct,
    direct <> "" /\
    get_opt (YouTube.payload
               (YouTube.youtube_video first_muxed
                  (fun _ => Ok {| YouTube.title := "clip"; YouTube.formats := ladder |})
                  (Some "https://youtu.be/x") (Some "600")))
            "url" = VStr direct.
Proof.
  destruct (youtube_video_reply_shape first_muxed
              (fun _ => Ok {| YouTube.title := "clip"; YouTube.formats := ladder |})
              (Some "https://youtu.be/x") (Some "600")) as (_ & _ & ok & _).
  destruct (ok eq_refl) as (direct & N & U & _).
  exists direct. split; [exact N|exact U].
Defined.

(** * The scrape, with the candidates read off the page *)

(** ** The script pattern at one place *)

Lemma until_dquote_app (run post : string) :
  all_chars not_dquote run = true ->
  until_dquote (run ++ String dquote post) = Some (run, post).
Proof.
  induction run as [|c run IH].
  - intros _. reflexivity.
  - intros H. cbn [all_chars] in H. apply andb_true_iff in H. destruct H as [Hc Hr].
    unfold not_dquote in Hc. apply negb_true_iff in Hc.
    cbn [append until_dquote]. rewrite Hc, (IH Hr). reflexivity.
Qed.

Lemma substring_skip (pre s : string) (k : nat) :
  substring (String.length pre) k (pre ++ s) = substring 0 k s.
Proof. induction pre as [|c pre IH]; simpl; [reflexivity|exact IH]. Qed.

Lemma ends_with_app (suffix pre : string) : ends_with suffix (pre ++ suffix) = true.
Proof.
  unfold ends_with. rewrite length_append3.
  replace (String.length pre + String.length suffix - String.length suffix)%nat
    with (String.length pre) by lia.
  rewrite substring_skip, substring_whole, String.eqb_refl.
  apply andb_true_iff. split; [apply Nat.leb_le; lia|reflexivity].
Qed.

Lemma quoted_src_https (run post : string) :
  quoted_src ("https://" ++ run) ++ post = src_https ++ run ++ String dquote post.
Proof.
  unfold quoted_src, src_https. simpl. rewrite append_assoc3. reflexivity.
Qed.

Lemma quoted_src_length (run : string) :
  String.length (quoted_src ("https://" ++ run))
  = (String.length src_https + String.length run + 1)%nat.
Proof.
  unfold quoted_src, src_https. simpl. rewrite length_append3. simpl. lia.
Qed.

Lemma script_src_here_match (s u : string) (len : nat) :
  script_src_here s = Some (u, len) <->
  src_match s u /\ len = String.length (quoted_src u).
Proof.
  split.
  - unfold script_src_here.
    destruct (strip_prefix src_https s) as [r|] eqn:P; [|discriminate].
    apply strip_prefix_app in P.
    destruct (until_dquote r) as [[run rest]|] eqn:U; [|discriminate].
    destruct (until_dquote_split r run rest U) as [-> A].
    destruct (ends_with ".js" run) eqn:J; [|discriminate].
    intros E; inversion E; subst u len; clear E.
    split; [|symmetry; apply (quoted_src_length run)].
    split.
    + split.
      * destruct (ends_with_split ".js" run J) as [middle ->]. exists middle. reflexivity.
      * simpl. exact A.
    + exists rest. rewrite P. symmetry. apply quoted_src_https.
  - intros [[[[middle ->] A] [post ->]] ->].
    rewrite (quoted_src_https (middle ++ ".js") post), (quoted_src_length (middle ++ ".js")).
    assert (A' : all_chars not_dquote (middle ++ ".js") = true) by exact A.
    clear A. rename A' into A.
    unfold script_src_here.
    replace (strip_prefix src_https (src_https ++ (middle ++ ".js") ++ String dquote post))
      with (Some ((middle ++ ".js") ++ String dquote post))
      by (symmetry; apply strip_prefix_app; reflexivity).
    rewrite (until_dquote_app _ _ A), ends_with_app. reflexivity.
Qed.

Lemma src_match_here (s u : string) :
  src_match s u <-> exists len, script_src_here s = Some (u, len).
Proof.
  split.
  - intros M. exists (String.length (quoted_src u)). apply script_src_here_match. auto.
  - intros [len H]. now apply script_src_here_match in H.
Qed.

Lemma no_src_match_here (s : string) :
  script_src_here s = None <-> forall u, ~ src_match s u.
Proof.
  split.
  - intros N u M. apply src_match_here in M. destruct M as [len H]. congruence.
  - intros N. destruct (script_src_here s) as [[u len]|] eqn:H; [|reflexivity].
    exfalso. apply (N u). apply src_match_here. now exists len.
Qed.

(** ** The successive matches *)

Lemma script_srcs_from_skip (a b : string) :
  script_srcs_from (String.length a) (a ++ b) = script_srcs_from 0 b.
Proof. induction a as [|c a IH]; simpl; [reflexivity|exact IH]. Qed.

Lemma script_srcs_from_hit (c0 : ascii) (m post u : string) :
  script_src_here (String c0 (m ++ post)) = Some (u, S (String.length m)) ->
  script_srcs_from 0 (String c0 (m ++ post)) = u :: script_srcs_from 0 post.
Proof.
  intros M.
  change (script_srcs_from 0 (String c0 (m ++ post)))
    with (match script_src_here (String c0 (m ++ post)) with
          | Some (v, len) => v :: script_srcs_from (len - 1) (m ++ post)
          | None => script_srcs_from 0 (m ++ post)
          end).
  rewrite M. f_equal.
  replace (S (String.length m) - 1)%nat with (String.length m) by lia.
  apply script_srcs_from_skip.
Qed.

Lemma script_srcs_from_matched (u post : string) :
  https_script u ->
  script_srcs_from 0 (quoted_src u ++ post) = u :: script_srcs_from 0 post.
Proof.
  intros H.
  assert (M : script_src_here (quoted_src u ++ post)
              = Some (u, String.length (quoted_src u))).
  { apply script_src_here_match. split; [|reflexivity]. split; [exact H|]. now exists post. }
  exact (script_srcs_from_hit "s" ("rc=" ++ String dquote (u ++ String dquote "")) post u M).
Qed.

Lemma script_srcs_from_unmatched (c : ascii) (r : string) :
  script_src_here (String c r) = None ->
  script_srcs_from 0 (String c r) = script_srcs_from 0 r.
Proof.
  intros N.
  change (script_srcs_from 0 (String c r))
    with (match script_src_here (String c r) with
          | Some (v, len) => v :: script_srcs_from (len - 1) r
          | None => script_srcs_from 0 r
          end).
  rewrite N. reflexivity.
Qed.

Lemma Scan_shift (c : ascii) (r : string) (l : list string) :
  (forall u, ~ src_match (String c r) u) -> Scan r l -> Scan (String c r) l.
Proof.
  intros N S. inversion S as [s0 No|s0 pre u post us E H Left Rest]; subst.
  - apply Scan_none. intros pre rest u E M.
    destruct pre as [|b pre]; simpl in E.
    + subst rest. exact (N u M).
    + inversion E; subst. exact (No pre rest u eq_refl M).
  - apply (Scan_match _ (String c pre) u post us); auto.
    intros pre' rest' u' E L M.
    destruct pre' as [|b pre']; simpl in E.
    + subst rest'. exact (N u' M).
    + inversion E; subst. apply (Left pre' rest' u'); auto. simpl in L. lia.
Qed.

(** The model enumerates the successive matches. *)
Lemma Scan_script_srcs (s : string) : Scan s (script_srcs s).
Proof.
  unfold script_srcs.
  assert (G : forall n s, (String.length s <= n)%nat -> Scan s (script_srcs_from 0 s)).
  { clear s. induction n as [|n IH]; intros s L.
    - destruct s; [|simpl in L; lia].
      apply Scan_none. intros pre rest u E [_ [post P]].
      destruct pre; [|discriminate]. simpl in E. subst rest.
      unfold quoted_src in P. discriminate.
    - destruct s as [|c r].
      { apply Scan_none. intros pre rest u E [_ [post P]].
        destruct pre; [|discriminate]. simpl in E. subst rest.
        unfold quoted_src in P. discriminate. }
      destruct (script_src_here (String c r)) as [[u len]|] eqn:H.
      + apply script_src_here_match in H. destruct H as [[Hu [post E]] _].
        rewrite E, (script_srcs_from_matched u post Hu).
        apply (Scan_match _ "" u post); auto.
        * intros pre' rest' u' _ L'. simpl in L'. lia.
        * apply IH. apply (f_equal String.length) in E.
          rewrite length_append3 in E. unfold quoted_src in E. simpl in E, L. lia.
      + rewrite (script_srcs_from_unmatched c r H).
        apply Scan_shift; [now apply no_src_match_here|].
        apply IH. simpl in L. lia. }
  apply (G (String.length s)). lia.
Qed.

Lemma script_srcs_from_nowhere (s : string) (skip : nat) :
  (forall pre rest u, s = pre ++ rest -> ~ src_match rest u) ->
  script_srcs_from skip s = [].
Proof.
  revert skip. induction s as [|c r IH]; intros skip N; [reflexivity|].
  assert (N' : forall pre rest u, r = pre ++ rest -> ~ src_match rest u).
  { intros pre rest u -> M. exact (N (String c pre) rest u eq_refl M). }
  destruct skip as [|k]; [|simpl; now apply IH].
  rewrite script_srcs_from_unmatched; [now apply IH|].
  apply no_src_match_here. intros u M. exact (N "" (String c r) u eq_refl M).
Qed.

Lemma script_srcs_from_leftmost (pre u post : string) :
  https_script u ->
  (forall pre' rest' u',
      pre ++ quoted_src u ++ post = pre' ++ rest' ->
      (String.length pre' < String.length pre)%nat -> ~ src_match rest' u') ->
  script_srcs_from 0 (pre ++ quoted_src u ++ post) = u :: script_srcs_from 0 post.
Proof.
  intros H. induction pre as [|c pre IH]; intros Left.
  - now apply script_srcs_from_matched.
  - cbn [append]. rewrite script_srcs_from_unmatched.
    + apply IH. intros pre' rest' u' E L M.
      apply (Left (String c pre') rest' u');
        [cbn [append]; f_equal; exact E|simpl; lia|exact M].
    + apply no_src_match_here. intros u' M.
      apply (Left "" (String c pre ++ quoted_src u ++ post) u');
        [reflexivity|simpl; lia|exact M].
Qed.

(** The successive matches are those the model enumerates, and no others. *)
Lemma Scan_unique (s : string) (l : list string) : Scan s l -> l = script_srcs s.
Proof.
  unfold script_srcs. induction 1 as [s N|s pre u post us E H Left _ IH].
  - symmetry. now apply script_srcs_from_nowhere.
  - subst s. rewrite (script_srcs_from_leftmost pre u post H Left), IH. reflexivity.
Qed.

(** ** The loop, candidate by candidate *)

Lemma yields_at_gives (e : env) (h : list target) (u c : string) :
  yields_at e h u = Some c <-> gives_at e h u c.
Proof.
  unfold yields_at, gives_at, on_cdn. split.
  - destruct (includes "sndcdn.com" u) eqn:C; [|discriminate].
    apply includes_occurs in C.
    destruct (upstream e h (Url u)) as [answer|]; [|discriminate].
    destruct (res_text answer) as [content|] eqn:T; [|discriminate].
    intros M. split; [exact C|]. exists answer, content.
    split; [reflexivity|]. split; [exact T|]. now apply client_id_match_first.
  - intros (C & answer & content & -> & -> & F).
    apply includes_occurs in C. rewrite C. now apply client_id_match_first.
Qed.

Lemma yields_at_none (e : env) (h : list target) (u : string) :
  yields_at e h u = None <-> forall c, ~ gives_at e h u c.
Proof.
  split.
  - intros N c G. apply yields_at_gives in G. congruence.
  - intros N. destruct (yields_at e h u) as [c|] eqn:Y; [|reflexivity].
    exfalso. apply (N c). now apply yields_at_gives.
Qed.

Lemma history_nil (h : list target) : history h [] = h.
Proof. reflexivity. Qed.

Lemma history_cons (h : list target) (u : string) (before : list string) :
  history h (u :: before) = history (if on_cdn u then Url u :: h else h) before.
Proof.
  unfold history. simpl. destruct (on_cdn u); [|reflexivity].
  simpl. rewrite <- app_assoc. reflexivity.
Qed.

Lemma silent_tail (e : env) (h : list target) (u : string) (cands : list string) :
  silent e h (u :: cands) ->
  (forall c, ~ gives_at e h u c) /\
  silent e (if on_cdn u then Url u :: h else h) cands.
Proof.
  intros S. split.
  - intros c. exact (S [] u cands c eq_refl).
  - intros b1 v b2 c E. rewrite <- history_cons.
    apply (S (u :: b1) v b2 c). simpl. now rewrite E.
Qed.

Lemma silent_cons (e : env) (h : list target) (u : string) (cands : list string) :
  (forall c, ~ gives_at e h u c) ->
  silent e (if on_cdn u then Url u :: h else h) cands ->
  silent e h (u :: cands).
Proof.
  intros N S b1 v b2 c E. destruct b1 as [|x b1]; simpl in E; inversion E; subst.
  - apply N.
  - rewrite history_cons. now apply (S b1 v b2 c).
Qed.

(** One turn of the loop: what the candidate gives when requested now, and
    the world the next turn starts from. *)
Lemma try_scripts_turn (now : Z) (e : env) (u : string) (rest : list string) (w : world) :
  match yields_at e (requests w) u with
  | Some c => fst (try_scripts now (u :: rest) e w) = Ok c
  | None =>
      exists w', try_scripts now (u :: rest) e w = try_scripts now rest e w' /\
                 requests w' = (if on_cdn u then Url u :: requests w else requests w)
  end.
Proof.
  unfold yields_at, on_cdn. simpl.
  destruct (includes "sndcdn.com" u); [|exists w; split; reflexivity].
  unfold script_token, bind, fetch, text, ret, throw.
  destruct (upstream e (requests w) (Url u)) as [r|].
  - destruct (res_text r) as [content|].
    + destruct (client_id_match content) as [c|]; [reflexivity|].
      exists (log (Url u) w). split; reflexivity.
    + exists (log (Url u) w). split; reflexivity.
  - exists (log (Url u) w). split; reflexivity.
Qed.

Lemma try_scripts_silent (now : Z) (e : env) (cands : list string) (w : world) :
  silent e (requests w) cands ->
  fst (try_scripts now cands e w) = Throw no_client_id.
Proof.
  revert w. induction cands as [|u cands IH]; intros w S; [reflexivity|].
  apply silent_tail in S. destruct S as [N S].
  pose proof (try_scripts_turn now e u cands w) as T.
  apply yields_at_none in N. rewrite N in T. destruct T as (w' & -> & R).
  apply IH. rewrite R. exact S.
Qed.

Lemma try_scripts_gives (now : Z) (e : env) (before after : list string) (u c : string)
    (w : world) :
  silent e (requests w) before ->
  gives_at e (history (requests w) before) u c ->
  fst (try_scripts now (before ++ u :: after) e w) = Ok c.
Proof.
  revert w. induction before as [|v before IH]; intros w S G.
  - rewrite history_nil in G. apply yields_at_gives in G.
    pose proof (try_scripts_turn now e u after w) as T. rewrite G in T. exact T.
  - apply silent_tail in S. destruct S as [N S].
    pose proof (try_scripts_turn now e v (before ++ u :: after) w) as T.
    apply yields_at_none in N. rewrite N in T. destruct T as (w' & E & R).
    simpl app. rewrite E. apply IH; rewrite R; [exact S|].
    rewrite <- history_cons. exact G.
Qed.

(** Either no candidate gives a token at its turn, or there is a first one
    that does. *)
Lemma first_gives (e : env) (cands : list string) (h : list target) :
  silent e h cands \/
  exists before u after c,
    cands = (before ++ u :: after)%list /\ silent e h before /\
    gives_at e (history h before) u c.
Proof.
  revert h. induction cands as [|u cands IH]; intros h.
  - left. intros b1 v b2 c E. destruct b1; discriminate.
  - destruct (yields_at e h u) as [c|] eqn:Y.
    + right. exists [], u, cands, c. split; [reflexivity|]. split.
      * intros b1 v b2 c' E. destruct b1; discriminate.
      * rewrite history_nil. now apply yields_at_gives.
    + assert (N : forall c, ~ gives_at e h u c) by (now apply yields_at_none).
      destruct (IH (if on_cdn u then Url u :: h else h))
        as [S|(before & v & after & c & -> & S & G)].
      * left. now apply silent_cons.
      * right. exists (u :: before), v, after, c. split; [reflexivity|]. split.
        -- now apply silent_cons.
        -- rewrite history_cons. exact G.
Qed.

(** C7 (as amended).  When the landing page cannot be fetched or read, the
    scrape fails with that rejection, after the one request.  When it is
    delivered, the candidates are the successive matches of the script
    pattern in it (double-quoted [https] [src] values ending in [.js]), and
    going through them in page order: the scrape fails, with [Could not
    extract client_id], exactly when none of them gives a token at its turn
    (one that does not contain [sndcdn.com], cannot be fetched or read, or
    holds no match of the token pattern, gives none, and the loop goes on to
    the next); otherwise it returns the token of the first that gives one,
    the 32 alphanumeric characters of the leftmost place of that script where
    the token pattern holds; and the requests sent are the landing page
    followed by candidates containing [sndcdn.com], in page order, each
    requested once. *)
Theorem scrape_outcome (now : Z) (e : env) (w : world) :
  (forall u, on_cdn u = true <-> occurs "sndcdn.com" u) /\
  ((upstream e (requests w) homepage = None \/
    exists r, upstream e (requests w) homepage = Some r /\ res_text r = None) ->
   scrape now e w = (Throw FetchRejected, log homepage w)) /\
  (forall r html,
      upstream e (requests w) homepage = Some r ->
      res_text r = Some html ->
      exists cands,
        Scan html cands /\ (forall l, Scan html l -> l = cands) /\
        (fst (scrape now e w) = Throw no_client_id <->
         silent e (homepage :: requests w) cands) /\
        (forall c, fst (scrape now e w) = Ok c <->
           exists before u after,
             cands = (before ++ u :: after)%list /\
             silent e (homepage :: requests w) before /\
             gives_at e (history (homepage :: requests w) before) u c) /\
        (exists fetched rest,
           filter on_cdn cands = (fetched ++ rest)%list /\
           requests (snd (scrape now e w))
             = (rev (map Url fetched) ++ homepage :: requests w)%list)).
Proof.
  split; [intros u; apply includes_occurs|].
  split; [apply scrape_without_page|].
  intros r html U T. exists (script_srcs html).
  split; [apply Scan_script_srcs|].
  split; [intros l S; now apply Scan_unique|].
  rewrite (scrape_with_page now e w r html U T).
  change (homepage :: requests w) with (requests (log homepage w)).
  split; [|split].
  - split.
    + intros F. destruct (first_gives e (script_srcs html) (requests (log homepage w)))
        as [S|(before & u & after & c & E & S & G)]; [exact S|].
      rewrite E, (try_scripts_gives now e before after u c _ S G) in F. discriminate.
    + apply try_scripts_silent.
  - intros c. split.
    + intros F. destruct (first_gives e (script_srcs html) (requests (log homepage w)))
        as [S|(before & u & after & c' & E & S & G)].
      * rewrite (try_scripts_silent now e _ _ S) in F. discriminate.
      * exists before, u, after. split; [exact E|]. split; [exact S|].
        rewrite E, (try_scripts_gives now e before after u c' _ S G) in F. congruence.
    + intros (before & u & after & E & S & G). rewrite E. now apply try_scripts_gives.
  - apply (try_scripts_log now e (script_srcs html) (log homepage w)).
Qed.

Lemma scrape_outcome_witness :
  fst (scrape 0 scrape_env initial_world) = Ok demo_token /\
  scrape 0 silent_env initial_world = (Throw FetchRejected, log homepage initial_world).
Proof.
  destruct (scrape_outcome 0 scrape_env initial_world) as (_ & _ & delivered).
  destruct (scrape_outcome 0 silent_env initial_world) as (_ & lost & _).
  split; [|apply lost; left; reflexivity].
  destruct (delivered (page_response demo_page) demo_page eq_refl eq_refl)
    as (cands & S & Only & _ & found & _).
  apply found.
  assert (E : [demo_script_url] = cands).
  { apply Only. change [demo_script_url] with (script_srcs demo_page).
    apply Scan_script_srcs. }
  exists [], demo_script_url, []. split; [symmetry; exact E|]. split.
  - intros b1 v b2 c E'. destruct b1; discriminate.
  - apply yields_at_gives. reflexivity.
Defined.

(** C7, as stated, fails when the landing page cannot be fetched: no
    candidate gives a token (every request is rejected), yet the failure is
    the rejection of the fetch, not [Could not extract client_id]. *)
Lemma rejected_page_is_not_no_client_id :
  fst (scrape 0 silent_env initial_world) = Throw FetchRejected /\
  fst (scrape 0 silent_env initial_world) <> Throw no_client_id /\
  (forall h u c, ~ gives_at silent_env h u c) /\
  requests (snd (scrape 0 silent_env initial_world)) = [homepage].
Proof.
  split; [reflexivity|]. split; [discriminate|]. split; [|reflexivity].
  intros h u c (_ & answer & content & U & _). discriminate U.
Qed.
